(** * cslb: client side load balancing over DNS SRV records

    A shallow embedding of the dial-interception core of the Go package
    [cslb] (the dial orchestrator and the SRV cache of dial.go, and the
    health cache) and the properties its specification states about it.

    Conventions of the embedding
    - Go's [int] is 64 bits wide: [Z] with the wrap-around written out
      ([int_wrap]); [uint16] and [uint64] conversions reduce modulo 2^16 and
      2^64.
    - Go strings are byte strings: Rocq's [string].
    - [time.Time] is an instant on a line: [Z], the zero [time.Time] being 0;
      [Before], [After], [IsZero] and [Add] are the comparisons and the sum.
    - a run-time panic (index out of range, nil dereference, [rand.Intn] of
      a non-positive bound) is the outcome [Panic].
    - maps are stdpp's [gmap], the [dupes] maps used as sets are [gset]. *)

From Stdlib Require Import ZArith List String Ascii Lia Permutation Sorted Bool.
From stdpp Require Import base gmap strings list pretty.

Local Open Scope string_scope.
Local Open Scope list_scope.
Local Open Scope Z_scope.

(** ** Outcomes of Go code that may panic *)

Inductive outcome (A : Type) : Type :=
| Panic : outcome A
| Ret : A -> outcome A.
Arguments Panic {A}.
Arguments Ret {A} _.

Definition obind {A B} (m : outcome A) (k : A -> outcome B) : outcome B :=
  match m with
  | Panic => Panic
  | Ret a => k a
  end.

Notation "x <~ m ;; k" := (obind m (fun x => k))
  (at level 100, m at next level, right associativity, only parsing).

(** ** Machine integers *)

Definition int_wrap (z : Z) : Z := (z + 2 ^ 63) mod 2 ^ 64 - 2 ^ 63.
Definition int_add (a b : Z) : Z := int_wrap (a + b).
Definition int_mul (a b : Z) : Z := int_wrap (a * b).
(** Go's [/] on [int] truncates toward zero. *)
Definition int_div (a b : Z) : Z := int_wrap (Z.quot a b).
Definition uint16 (z : Z) : Z := z mod 2 ^ 16.
Definition uint64 (z : Z) : Z := z mod 2 ^ 64.

Definition max_int : Z := 2 ^ 63 - 1.
Definition min_int : Z := - 2 ^ 63.
Definition is_int (z : Z) : Prop := min_int <= z <= max_int.
Definition is_uint16 (z : Z) : Prop := 0 <= z < 2 ^ 16.

(** ** Strings: [len], indexing, slicing, [strings.LastIndex],
    [strings.ToLower], [bytes.Contains], decimal formatting *)

Definition len (s : string) : Z := Z.of_nat (String.length s).

(** [s[i]]: panics when [i] is out of range. *)
Definition byte_at (s : string) (i : Z) : outcome ascii :=
  if (0 <=? i) && (i <? len s) then
    match String.get (Z.to_nat i) s with
    | Some c => Ret c
    | None => Panic
    end
  else Panic.

Fixpoint take_str (n : nat) (s : string) : string :=
  match n, s with
  | O, _ => ""
  | S n', String c s' => String c (take_str n' s')
  | S _, EmptyString => ""
  end.

Fixpoint drop_str (n : nat) (s : string) : string :=
  match n, s with
  | O, _ => s
  | S n', String _ s' => drop_str n' s'
  | S _, EmptyString => ""
  end.

(** [s[lo:hi]]: panics unless [0 <= lo <= hi <= len s]. *)
Definition slice (s : string) (lo hi : Z) : outcome string :=
  if (0 <=? lo) && (lo <=? hi) && (hi <=? len s) then
    Ret (take_str (Z.to_nat (hi - lo)) (drop_str (Z.to_nat lo) s))
  else Panic.

(** [s[:hi]] and [s[lo:]]. *)
Definition slice_to (s : string) (hi : Z) : outcome string := slice s 0 hi.
Definition slice_from (s : string) (lo : Z) : outcome string := slice s lo (len s).

(** [strings.LastIndex s sep]: index of the last occurrence of [sep] in [s],
    or -1; the scan carries the index [i] of the head of [s]. *)
Fixpoint LastIndex_at (i : Z) (s sep : string) : Z :=
  match s with
  | EmptyString => if String.prefix sep "" then i else -1
  | String _ s' =>
      let r := LastIndex_at (i + 1) s' sep in
      if 0 <=? r then r else if String.prefix sep s then i else -1
  end.

Definition LastIndex (s sep : string) : Z := LastIndex_at 0 s sep.

(** [bytes.Contains body sub]. *)
Fixpoint Contains (s sub : string) : bool :=
  String.prefix sub s ||
  match s with
  | EmptyString => false
  | String _ s' => Contains s' sub
  end.

(** [strings.ToLower] on the ASCII letters, which is what host names are made
    of; bytes outside A-Z are kept. *)
Definition lower_byte (c : ascii) : ascii :=
  let n := N_of_ascii c in
  if ((65 <=? n) && (n <=? 90))%N then ascii_of_N (n + 32) else c.

Fixpoint ToLower (s : string) : string :=
  match s with
  | EmptyString => EmptyString
  | String c s' => String (lower_byte c) (ToLower s')
  end.

(** [strconv.FormatUint u 10]. *)
Definition FormatUint (u : Z) : string := pretty (Z.to_N u).

(** The verb [%d] of [fmt.Sprintf] on an [int]. *)
Definition fmt_d (z : Z) : string :=
  if z <? 0 then "-" +:+ pretty (Z.to_N (- z)) else pretty (Z.to_N z).

(** ** cslb.go: the configuration

    The fields of [config] the embedded functions read; durations are
    nanosecond counts. [ServiceName] is read by [dialContext] as a field of
    the configuration; the struct of cslb.go does not declare it, and it is
    taken here as the static override of the service name that [dialContext]
    tests first. *)

Record config : Type := {
  ServiceName : string;
  DisableInterception : bool;
  DisableHealthChecks : bool;
  AllowNumericServices : bool;
  HealthCheckContentOk : string;
  DialVetoDuration : Z;
  NotFoundSRVTTL : Z;
  FoundSRVTTL : Z;
  HealthTTL : Z
}.

(** ** dial.go: extractHostPort and the entry of dialContext *)

Section ExtractHostPort.

(** [net.ParseIP host != nil], a function of Go's library. *)
Variable ParseIP : string -> bool.

Definition extractHostPort (address : string) : outcome (string * string) :=
  c <~ byte_at address 0 ;;
  if Ascii.eqb c "["%char then Ret ("", "")
  else
    let lastColon := LastIndex address ":" in
    if lastColon <? 1 then Ret ("", "")
    else if lastColon + 1 =? len address then Ret ("", "")
    else
      host <~ slice_to address lastColon ;;
      port <~ slice_from address (lastColon + 1) ;;
      if ParseIP host then Ret ("", "") else Ret (host, port).

(** What [dialContext] decides from the address alone. *)
Inductive route : Type :=
| PassThru                               (* t.systemDialContext(ctx, network, address) *)
| Intercept (service host : string).     (* lookupSRV and dialIterate *)

Definition dialContext_route (t : config) (address : string) : outcome route :=
  hp <~ extractHostPort (ToLower address) ;;
  let '(host, port) := hp in
  let service :=
    if negb (String.eqb (ServiceName t) "") then ServiceName t
    else if String.eqb port "80" then "http"
    else if String.eqb port "443" then "https"
    else if AllowNumericServices t then port
    else "" in
  if (len host =? 0) || (len service =? 0) || DisableInterception t
  then Ret PassThru
  else Ret (Intercept service host).

End ExtractHostPort.


(** ** The SRV cache: the SRV view *)

Definition smallChanceMultiplier : Z := 1000.

(** [net.SRV]; [Port], [Priority] and [Weight] are [uint16]. *)
Record SRV : Type := mkSRV {
  Target : string;
  Port : Z;
  Priority : Z;
  Weight : Z
}.

Definition SRV_ok (srv : SRV) : Prop :=
  is_uint16 (Port srv) /\ is_uint16 (Priority srv) /\ is_uint16 (Weight srv).

Record ceTarget : Type := mkTarget {
  weight : Z;
  port : Z;
  target : string
}.

Record cePriority : Type := mkPriority {
  priority : Z;
  totalWeight : Z;
  targets : list ceTarget
}.

Record ceSRV : Type := mkCeSRV {
  expires : Z;
  lookups : Z;
  priorities : list cePriority;
  uniqueTargetCount : Z
}.

(** *** populate

    [sort.Slice] is not a stable sort: the embedding takes the sort as a
    function and the theorems ask of it only what [sort.Slice] promises, a
    permutation in which priorities do not decrease. [sort_by_priority] is
    one such function, a stable insertion sort. *)

Definition sorts_by_priority (sortSlice : list SRV -> list SRV) : Prop :=
  forall srvs,
    Permutation srvs (sortSlice srvs) /\
    StronglySorted (fun a b => Priority a <= Priority b) (sortSlice srvs).

Fixpoint insert_by_priority (srv : SRV) (l : list SRV) : list SRV :=
  match l with
  | [] => [srv]
  | x :: l' =>
      if Priority srv <? Priority x then srv :: l
      else x :: insert_by_priority srv l'
  end.

Definition sort_by_priority (srvs : list SRV) : list SRV :=
  fold_left (fun acc srv => insert_by_priority srv acc) srvs [].

(** The body of the first loop after the test on [cep]: build [cet], append
    it to [cep.targets] and add its weight to [cep.totalWeight]. *)
Definition add_target (cep : cePriority) (srv : SRV) : cePriority :=
  let cet := {| weight := int_mul (Weight srv) smallChanceMultiplier;
                port := Port srv;
                target := ToLower (Target srv) |} in
  {| priority := priority cep;
     totalWeight := int_add (totalWeight cep) (weight cet);
     targets := targets cep ++ [cet] |}.

Definition new_priority (srv : SRV) : cePriority :=
  {| priority := Priority srv; totalWeight := 0; targets := [] |}.

(** One iteration of the first loop. In the source [cep] points at the last
    element of [t.priorities]; the state keeps that element aside: the slice
    is [done ++ [cep]] when [cep] is not nil, and [done] when it is. *)
Definition transfer_step (st : list cePriority * option cePriority) (srv : SRV)
  : list cePriority * option cePriority :=
  if len (Target srv) =? 0 then st
  else
    let '(done, cep) := st in
    match cep with
    | None => (done, Some (add_target (new_priority srv) srv))
    | Some c =>
        if negb (Priority srv =? priority c)
        then (done ++ [c], Some (add_target (new_priority srv) srv))
        else (done, Some (add_target c srv))
    end.

Definition close_priorities (st : list cePriority * option cePriority)
  : list cePriority :=
  match snd st with
  | None => fst st
  | Some c => fst st ++ [c]
  end.

Definition transfer (ps : list cePriority) (sorted : list SRV) : list cePriority :=
  close_priorities (fold_left transfer_step sorted (ps, None)).

Definition zeroWeightEntryCount (ts : list ceTarget) : Z :=
  fold_left (fun n cet => if weight cet =? 0 then int_add n 1 else n) ts 0.

(** The last loop over [cep.targets]: returns the targets and the total. *)
Fixpoint assign_verySmall (verySmall : Z) (ts : list ceTarget) (total : Z)
  : list ceTarget * Z :=
  match ts with
  | [] => ([], total)
  | cet :: ts' =>
      if weight cet =? 0 then
        let '(r, total') := assign_verySmall verySmall ts' (int_add total verySmall) in
        ({| weight := verySmall; port := port cet; target := target cet |} :: r, total')
      else
        let '(r, total') := assign_verySmall verySmall ts' total in
        (cet :: r, total')
  end.

Definition verySmall_of (total z : Z) : Z :=
  let verySmall := int_div total smallChanceMultiplier in
  let verySmall := int_div (int_add (int_add verySmall z) (-1)) z in
  if verySmall =? 0 then 1 else verySmall.

(** The body of the second loop. *)
Definition fix_zero_weights (cep : cePriority) : cePriority :=
  let z := zeroWeightEntryCount (targets cep) in
  if z =? 0 then cep
  else
    let '(ts, total) :=
      assign_verySmall (verySmall_of (totalWeight cep) z) (targets cep) (totalWeight cep) in
    {| priority := priority cep; totalWeight := total; targets := ts |}.

Definition populate_sorted (t : ceSRV) (sorted : list SRV) : ceSRV :=
  {| expires := expires t;
     lookups := lookups t;
     priorities := map fix_zero_weights (transfer (priorities t) sorted);
     uniqueTargetCount := uniqueTargetCount t |}.

Definition populate (sortSlice : list SRV -> list SRV) (t : ceSRV) (srvs : list SRV) : ceSRV :=
  populate_sorted t (sortSlice srvs).


(** ** The health cache *)

(** [expiresH] is the field [expires] of [ceHealth] (the name is taken by
    [ceSRV]). *)
Record ceHealth : Type := mkHealth {
  expiresH : Z;
  goodDials : Z;
  failedDials : Z;
  nextDialAttempt : Z;
  lastDialAttempt : Z;
  lastDialStatus : string;
  lastHealthCheck : Z;
  lastHealthCheckStatus : string;
  url : string;
  unHealthy : bool
}.

(** [&ceHealth{expires: e}]: every other field has its zero value. *)
Definition new_ceHealth (e : Z) : ceHealth :=
  mkHealth e 0 0 0 0 "" 0 "" "" false.

Definition zeroTime : Z := 0.
Definition IsZero (t : Z) : bool := t =? 0.
Definition Before (t u : Z) : bool := t <? u.
Definition After (t u : Z) : bool := u <? t.
Definition Add (t d : Z) : Z := t + d.

Definition isGood (t : ceHealth) (now : Z) : bool :=
  negb (unHealthy t) && negb (After (nextDialAttempt t) now).

Definition makeHealthStoreKey (host : string) (port : Z) : string :=
  host +:+ ":" +:+ FormatUint (uint64 port).

Definition healthStoreKey (t : ceTarget) : string :=
  makeHealthStoreKey (target t) (port t).

(** The fields [setDialResult] writes after a good dial and after a failed
    one. *)
Definition dial_good (now : Z) (ceh : ceHealth) : ceHealth :=
  mkHealth (expiresH ceh) (int_add (goodDials ceh) 1) (failedDials ceh)
    zeroTime now ""
    (lastHealthCheck ceh) (lastHealthCheckStatus ceh) (url ceh) (unHealthy ceh).

Definition dial_failed (t : config) (now : Z) (msg : string) (ceh : ceHealth) : ceHealth :=
  mkHealth (expiresH ceh) (goodDials ceh) (int_add (failedDials ceh) 1)
    (Add now (DialVetoDuration t)) now msg
    (lastHealthCheck ceh) (lastHealthCheckStatus ceh) (url ceh) (unHealthy ceh).

(** [setDialResult]: [err] is [None] for a nil error and [Some msg] for an
    error whose [Error()] is [msg]. The second component lists the keys for
    which a [fetchAndRunHealthCheck] goroutine is started. *)
Definition setDialResult (t : config) (now : Z) (host : string) (port : Z)
    (err : option string) (cache : gmap string ceHealth)
  : gmap string ceHealth * list string :=
  let healthStoreKey := makeHealthStoreKey host port in
  let '(ceh, started) :=
    match cache !! healthStoreKey with
    | Some ceh => (ceh, [])
    | None =>
        (new_ceHealth (Add now (HealthTTL t)),
         if negb (DisableHealthChecks t) then [healthStoreKey] else [])
    end in
  let ceh :=
    match err with
    | None => dial_good now ceh
    | Some msg => dial_failed t now msg ceh
    end in
  (<[healthStoreKey := ceh]> cache, started).

(** [populateHealthStore], one key after the other. *)
Fixpoint populateHealthStore (t : config) (now : Z) (healthStoreKeys : list string)
    (cache : gmap string ceHealth) : gmap string ceHealth * list string :=
  match healthStoreKeys with
  | [] => (cache, [])
  | healthStoreKey :: rest =>
      match cache !! healthStoreKey with
      | Some _ => populateHealthStore t now rest cache
      | None =>
          let '(cache', started) :=
            populateHealthStore t now rest
              (<[healthStoreKey := new_ceHealth (Add now (HealthTTL t))]> cache) in
          (cache',
           if negb (DisableHealthChecks t) then healthStoreKey :: started else started)
      end
  end.

(** *** The loop of fetchAndRunHealthCheck *)

(** What [t.hcClient.Get(hcURL)] and the read of the body give: an error of
    the transport, or a response with its [StatusCode], its [Status] line and
    the body read by [ioutil.ReadAll], which may itself fail. *)
Inductive httpGet : Type :=
| GetError (msg : string)
| GetResponse (StatusCode : Z) (Status : string) (body : string) (readFailed : bool).

Inductive control : Type := Return | Continue.

Definition StatusOK : Z := 200.

(** One turn of the loop, after the sleep: [now] is [time.Now()], [expires]
    the value read from the record before the loop. *)
Definition healthCheckIteration (t : config) (expires now : Z) (get : httpGet)
    (ceh : ceHealth) : ceHealth * control :=
  if Before expires now then (ceh, Return)
  else
    match get with
    | GetError msg =>
        (mkHealth (expiresH ceh) (goodDials ceh) (failedDials ceh)
           (nextDialAttempt ceh) (lastDialAttempt ceh) (lastDialStatus ceh)
           now msg (url ceh) true,
         Return)
    | GetResponse code status body readFailed =>
        if readFailed then (ceh, Continue)
        else
          let ok := (code =? StatusOK) && Contains body (HealthCheckContentOk t) in
          (mkHealth (expiresH ceh) (goodDials ceh) (failedDials ceh)
             (nextDialAttempt ceh) (lastDialAttempt ceh) (lastDialStatus ceh)
             now status (url ceh) (negb ok),
           Continue)
    end.

(** The loop over the turns the worker lives through: each turn is the clock
    and the outcome of the GET. *)
Fixpoint healthCheckLoop (t : config) (expires : Z) (turns : list (Z * httpGet))
    (ceh : ceHealth) : ceHealth * control :=
  match turns with
  | [] => (ceh, Continue)
  | (now, get) :: rest =>
      match healthCheckIteration t expires now get ceh with
      | (ceh', Return) => (ceh', Return)
      | (ceh', Continue) => healthCheckLoop t expires rest ceh'
      end
  end.

(** ** The SRV cache: bestTarget *)

(** [t.randIntn] is [rand.Intn]: it panics unless the bound is positive and
    returns a value of [0, n) otherwise; [pick] is the entropy it consumes. *)
Definition randIntn (pick : Z) (n : Z) : outcome Z :=
  if n <=? 0 then Panic else Ret (pick mod n).

(** The four assignments to the fields of [srv]. *)
Definition synth (cep : cePriority) (cet : ceTarget) : SRV :=
  {| Target := target cet;
     Port := uint16 (port cet);
     Priority := uint16 (priority cep);
     Weight := uint16 (weight cet) / smallChanceMultiplier |}.

Definition usable (cache : gmap string ceHealth) (now : Z) (cet : ceTarget) : bool :=
  match cache !! healthStoreKey cet with
  | None => true
  | Some ceh => isGood ceh now
  end.

(** The walk over [cep.targets]: [inl srv] is the return of the happy path,
    [inr (srv, haveSecondChoice)] the state at the end of the slice. *)
Fixpoint scan_targets (cache : gmap string ceHealth) (now wix : Z) (cep : cePriority)
    (ts : list ceTarget) (lower upper : Z) (srv : SRV) (haveSecondChoice : bool)
  : SRV + SRV * bool :=
  match ts with
  | [] => inr (srv, haveSecondChoice)
  | cet :: ts' =>
      let upper := int_add upper (weight cet) in
      if usable cache now cet then
        if (lower <=? wix) && (wix <? upper) then inl (synth cep cet)
        else if negb haveSecondChoice
             then scan_targets cache now wix cep ts' upper upper (synth cep cet) true
             else scan_targets cache now wix cep ts' upper upper srv haveSecondChoice
      else scan_targets cache now wix cep ts' upper upper srv haveSecondChoice
  end.

(** The first loop over [cesrv.priorities]; [picks i] is the entropy of the
    draw made for the group of index [i]. *)
Fixpoint scan_priorities (cache : gmap string ceHealth) (now : Z) (picks : nat -> Z)
    (i : nat) (ps : list cePriority) (srv : SRV) (haveSecondChoice : bool)
  : outcome (SRV + SRV * bool) :=
  match ps with
  | [] => Ret (inr (srv, haveSecondChoice))
  | cep :: ps' =>
      wix <~ randIntn (picks i) (totalWeight cep) ;;
      match scan_targets cache now wix cep (targets cep) 0 0 srv haveSecondChoice with
      | inl found => Ret (inl found)
      | inr (srv', have) =>
          if have then Ret (inl srv')
          else scan_priorities cache now picks (S i) ps' srv' have
      end
  end.

(** The least-worst loops: the state is [srv] and [smallestLeastWorst]. *)
Definition nextAttempt_of (cache : gmap string ceHealth) (now : Z) (cet : ceTarget) : Z :=
  match cache !! healthStoreKey cet with
  | None => now
  | Some ceh => nextDialAttempt ceh
  end.

Fixpoint leastWorst_targets (cache : gmap string ceHealth) (now : Z) (cep : cePriority)
    (ts : list ceTarget) (st : SRV * Z) : SRV * Z :=
  match ts with
  | [] => st
  | cet :: ts' =>
      let nextAttempt := nextAttempt_of cache now cet in
      let smallestLeastWorst := snd st in
      if IsZero smallestLeastWorst || Before nextAttempt smallestLeastWorst
      then leastWorst_targets cache now cep ts' (synth cep cet, nextAttempt)
      else leastWorst_targets cache now cep ts' st
  end.

Definition leastWorst (cache : gmap string ceHealth) (now : Z)
    (ps : list cePriority) (st : SRV * Z) : SRV * Z :=
  fold_left (fun st cep => leastWorst_targets cache now cep (targets cep) st) ps st.

(** [&net.SRV{}]. *)
Definition empty_SRV : SRV := mkSRV "" 0 0 0.

(** [bestTarget]: [None] is the nil return; [now] is the [time.Now()] of the
    call and [cache] the health store, read under its lock. *)
Definition bestTarget (cache : gmap string ceHealth) (now : Z) (picks : nat -> Z)
    (cesrv : ceSRV) : outcome (option SRV) :=
  if Z.of_nat (length (priorities cesrv)) =? 0 then Ret None
  else
    r <~ scan_priorities cache now picks O (priorities cesrv) empty_SRV false ;;
    match r with
    | inl srv => Ret (Some srv)
    | inr (srv, _) =>
        Ret (Some (fst (leastWorst cache now (priorities cesrv) (srv, zeroTime))))
    end.

(** [uniqueTargetKeys]: the map [dupes] as a set; the slice returned lists it
    in the order of Go's map iteration, which is not specified. *)
Definition uniqueTargetKeys (t : ceSRV) : gset string :=
  fold_left
    (fun dupes cep =>
       fold_left (fun dupes cet => {[ healthStoreKey cet ]} ∪ dupes) (targets cep) dupes)
    (priorities t) ∅.

(** [uniqueTargets] returns the count stored by [lookupSRV]. *)
Definition uniqueTargets (t : ceSRV) : Z := uniqueTargetCount t.

(** *** lookupSRV *)

Record stores : Type := mkStores {
  srvStore : gmap string ceSRV;
  healthStore : gmap string ceHealth
}.

Section LookupSRV.

Variable sortSlice : list SRV -> list SRV.
(** [t.netResolver.LookupSRV ctx "" "" key]: the slice of records; the
    name and the error it returns with them are dropped by the caller. *)
Variable LookupSRV : string -> list SRV.

Definition srvKey (service proto domain : string) : string :=
  ToLower ("_" +:+ service +:+ "._" +:+ proto +:+ "." +:+ domain).

(** The view built on a cache miss, before it is stored. *)
Definition resolve_view (t : config) (now : Z) (key : string) : ceSRV :=
  let cesrv := {| expires := Add now (NotFoundSRVTTL t); lookups := 1;
                  priorities := []; uniqueTargetCount := 0 |} in
  let srvList := LookupSRV key in
  let cesrv :=
    if 0 <? Z.of_nat (length srvList) then
      populate sortSlice
        {| expires := Add now (FoundSRVTTL t); lookups := lookups cesrv;
           priorities := priorities cesrv;
           uniqueTargetCount := uniqueTargetCount cesrv |}
        srvList
    else cesrv in
  {| expires := expires cesrv; lookups := lookups cesrv;
     priorities := priorities cesrv;
     uniqueTargetCount := Z.of_nat (size (uniqueTargetKeys cesrv)) |}.

(** [lookupSRV]: the view returned, the two stores after the call and the
    keys for which a health check is started. *)
Definition lookupSRV (t : config) (now : Z) (service proto domain : string)
    (st : stores) : ceSRV * stores * list string :=
  let key := srvKey service proto domain in
  match srvStore st !! key with
  | Some cesrv =>
      let cesrv := {| expires := expires cesrv;
                      lookups := int_add (lookups cesrv) 1;
                      priorities := priorities cesrv;
                      uniqueTargetCount := uniqueTargetCount cesrv |} in
      (cesrv, mkStores (<[key := cesrv]> (srvStore st)) (healthStore st), [])
  | None =>
      let cesrv := resolve_view t now key in
      let targetKeys := elements (uniqueTargetKeys cesrv) in
      let '(health, started) := populateHealthStore t now targetKeys (healthStore st) in
      (cesrv, mkStores (<[key := cesrv]> (srvStore st)) health, started)
  end.

End LookupSRV.

(** ** dial.go: dialIterate *)

Record cslbStats : Type := mkStats {
  BestTarget : Z;
  DupesStopped : Z;
  GoodDials : Z;
  FailedDials : Z
}.

(** What the loop meets on its turn [i]: the entropy of the draws and the
    clock of [bestTarget], what other goroutines did to the health store
    since the previous turn, the answer of [t.systemDialContext] for the
    address dialled ([None] is a connection, [Some msg] an error) and the
    clock read after it. *)
Record world : Type := mkWorld {
  picks : nat -> nat -> Z;
  clock_best : nat -> Z;
  concurrent : nat -> gmap string ceHealth -> gmap string ceHealth;
  systemDialContext : nat -> string -> option string;
  clock_dial : nat -> Z
}.

(** The value sent on the channel [result]: the connection, named by the
    address it was dialled to, or the error, with the operands of its
    format. *)
Inductive dialResult : Type :=
| Connected (newAddress : string)
| AllUniqueTargetsFailed (address newAddress : string) (tried : Z) (lastError : option string).

Record dialState : Type := mkDialState {
  dupes : gset string;
  lastError : option string;
  ls : cslbStats;
  cache : gmap string ceHealth;
  dialled : list string;        (* the calls made to t.systemDialContext *)
  started : list string         (* the health checks started *)
}.

(** The loop of [dialIterate] from its turn [i]; [None] when [fuel] turns were
    not enough to reach a return. A nil [srv] panics at [srv.Target]. *)
Fixpoint dialIterate_from (fuel i : nat) (t : config) (w : world) (cesrv : ceSRV)
    (address : string) (st : dialState) : option (outcome (dialResult * dialState)) :=
  match fuel with
  | O => None
  | S fuel' =>
      let ls1 := mkStats (int_add (BestTarget (ls st)) 1) (DupesStopped (ls st))
                   (GoodDials (ls st)) (FailedDials (ls st)) in
      let cache0 := concurrent w i (cache st) in
      match bestTarget cache0 (clock_best w i) (picks w i) cesrv with
      | Panic => Some Panic
      | Ret None => Some Panic
      | Ret (Some srv) =>
          let newAddress := Target srv +:+ ":" +:+ fmt_d (Port srv) in
          if decide (newAddress ∈ dupes st) then
            let ls2 := mkStats (BestTarget ls1) (int_add (DupesStopped ls1) 1)
                         (GoodDials ls1) (FailedDials ls1) in
            Some (Ret (AllUniqueTargetsFailed address newAddress
                         (Z.of_nat (size (dupes st))) (lastError st),
                       mkDialState (dupes st) (lastError st) ls2 cache0
                         (dialled st) (started st)))
          else
            let dupes1 := {[ newAddress ]} ∪ dupes st in
            let err := systemDialContext w i newAddress in
            let now := clock_dial w i in
            let '(cache1, more) := setDialResult t now (Target srv) (Port srv) err cache0 in
            match err with
            | None =>
                let ls2 := mkStats (BestTarget ls1) (DupesStopped ls1)
                             (int_add (GoodDials ls1) 1) (FailedDials ls1) in
                Some (Ret (Connected newAddress,
                           mkDialState dupes1 err ls2 cache1
                             (dialled st ++ [newAddress]) (started st ++ more)))
            | Some _ =>
                let ls2 := mkStats (BestTarget ls1) (DupesStopped ls1)
                             (GoodDials ls1) (int_add (FailedDials ls1) 1) in
                dialIterate_from fuel' (S i) t w cesrv address
                  (mkDialState dupes1 err ls2 cache1
                     (dialled st ++ [newAddress]) (started st ++ more))
            end
      end
  end.

Definition dialIterate (fuel : nat) (t : config) (w : world) (cesrv : ceSRV)
    (address : string) (health : gmap string ceHealth)
  : option (outcome (dialResult * dialState)) :=
  dialIterate_from fuel O t w cesrv address
    (mkDialState ∅ None (mkStats 0 0 0 0) health [] []).

(** Views as [populate] builds them: every group has a positive total
    weight and every port is a [uint16]. *)
Definition priority_ok (cep : cePriority) : Prop :=
  0 < totalWeight cep /\ Forall (fun cet => is_uint16 (port cet)) (targets cep).

Definition view_ok (cesrv : ceSRV) : Prop := Forall priority_ok (priorities cesrv).

Definition fresh_view (e : Z) : ceSRV :=
  {| expires := e; lookups := 1; priorities := []; uniqueTargetCount := 0 |}.

Definition allTargets (cesrv : ceSRV) : list ceTarget :=
  concat (map targets (priorities cesrv)).

(** No byte of [s] is a colon. *)
Fixpoint no_colon (s : string) : Prop :=
  match s with
  | EmptyString => True
  | String c s' => c <> ":"%char /\ no_colon s'
  end.

(** The defaults of [newCslb]. *)
Definition default_config : config :=
  {| ServiceName := ""; DisableInterception := false; DisableHealthChecks := false;
     AllowNumericServices := false; HealthCheckContentOk := "OK";
     DialVetoDuration := 60000000000; NotFoundSRVTTL := 1200000000000;
     FoundSRVTTL := 300000000000; HealthTTL := 300000000000 |}.

(** ** The groups of a sorted slice, stated without the loops

    [grp p l] lists the records of [l] that populate keeps for the priority
    [p]: those with a target name and that priority. *)

Definition has_target (r : SRV) : bool := negb (len (Target r) =? 0).

Definition keeps (p : Z) (r : SRV) : bool := has_target r && (Priority r =? p).

Definition grp (p : Z) (l : list SRV) : list SRV := List.filter (keeps p) l.

(** The group the first loop builds from the records [rs] of one priority. *)
Definition build (p : Z) (rs : list SRV) : cePriority :=
  fold_left add_target rs {| priority := p; totalWeight := 0; targets := [] |}.

(** The sum of the weights of the records, and the number of records of
    weight zero. *)
Definition sumW (rs : list SRV) : Z := fold_right (fun r a => Weight r + a) 0 rs.

Definition countZ (rs : list SRV) : Z :=
  Z.of_nat (length (List.filter (fun r => Weight r =? 0) rs)).

(** The target stored for a record when [verySmall] is the weight given to
    the records of weight zero. *)
Definition final_target (verySmall : Z) (r : SRV) : ceTarget :=
  {| weight := if Weight r =? 0 then verySmall else Weight r * 1000;
     port := Port r;
     target := ToLower (Target r) |}.

Definition sum_weights (ts : list ceTarget) : Z :=
  fold_right (fun cet a => weight cet + a) 0 ts.

(** More records than a DNS answer can hold, and few enough for the sums of
    weights to stay far from the largest [int]. *)
Definition max_records : Z := 2 ^ 32.

(** What the first loop has built after the records [l1]. *)
Definition transfer_inv (l1 : list SRV) (st : list cePriority * option cePriority) : Prop :=
  Forall (fun cep => cep = build (priority cep) (grp (priority cep) l1) /\
                     grp (priority cep) l1 <> [])
         (close_priorities st) /\
  StronglySorted Z.lt (map priority (close_priorities st)) /\
  match snd st with
  | None => fst st = [] /\ Forall (fun r => has_target r = false) l1
  | Some c => Forall (fun r => has_target r = true -> Priority r <= priority c) l1
  end.

(** ** Predicates and examples used by the statements *)

(** A view of two targets of equal weight. *)
Definition two_targets : ceSRV :=
  populate sort_by_priority (fresh_view 0) [mkSRV "a" 1 0 1; mkSRV "b" 2 0 1].

(** Both targets failed their health check; [a:1] was never vetoed by a
    dial, [b:2] is vetoed until 61000. *)
Definition two_unhealthy : gmap string ceHealth :=
  <["a:1" := mkHealth 9000 0 0 0 0 "" 900 "503 Service Unavailable" "http://a/hc" true]>
    (<["b:2" := mkHealth 9000 0 1 61000 1000 "refused" 900 "503 Service Unavailable"
                  "http://b/hc" true]> ∅).

(** [srv] was built from a usable target of [ts]. *)
Definition picked (cache : gmap string ceHealth) (now : Z) (cep : cePriority)
    (ts : list ceTarget) (srv : SRV) : Prop :=
  exists cet, In cet ts /\ srv = synth cep cet /\ usable cache now cet = true.

Definition weights_ok (ps : list cePriority) : Prop :=
  Forall (fun cep => 0 < totalWeight cep) ps.

(** [srv] was built from a target of the groups [ps]. *)
Definition from_view (ps : list cePriority) (srv : SRV) : Prop :=
  exists cep cet, In cep ps /\ In cet (targets cep) /\ srv = synth cep cet.

(** What holds of the state at the head of every turn. *)
Definition dial_inv (keys : gset string) (st : dialState) : Prop :=
  dupes st = list_to_set (dialled st) /\ NoDup (dialled st) /\ dupes st ⊆ keys.

(** What holds of the value sent and of the state on return. *)
Definition dial_post (keys : gset string) (res : dialResult) (st : dialState) : Prop :=
  (length (dialled st) <= size keys)%nat /\ NoDup (dialled st) /\
  (forall a, In a (dialled st) -> a ∈ keys) /\
  match res with
  | Connected a => exists l, dialled st = l ++ [a]
  | AllUniqueTargetsFailed _ a tried _ =>
      In a (dialled st) /\ tried = Z.of_nat (length (dialled st))
  end.

(** ** Further functions of the package *)

(** [strings.IndexByte s c]: index of the first [c] in [s], or -1. *)
Fixpoint IndexByte_at (i : Z) (s : string) (c : ascii) : Z :=
  match s with
  | EmptyString => -1
  | String d s' => if Ascii.eqb d c then i else IndexByte_at (i + 1) s' c
  end.

Definition IndexByte (s : string) (c : ascii) : Z := IndexByte_at 0 s c.

(** [unpackHealthStoreKey]: both results stay empty unless a colon is found
    after the first byte. An index plus one does not wrap: an index is below
    the length, which is an [int]. *)
Definition unpackHealthStoreKey (targetKey : string) : outcome (string * string) :=
  let colon := IndexByte targetKey ":"%char in
  if 0 <? colon then
    host <~ slice_to targetKey colon ;;
    port <~ slice_from targetKey (colon + 1) ;;
    Ret (host, port)
  else Ret ("", "").

(** [trimTo]; [max - 3] is computed for [3 < max] only and does not wrap. *)
Definition trimTo (s : string) (max : Z) : outcome string :=
  if max <? len s then
    if max <=? 3 then Ret "..."
    else
      head <~ slice_to s (max - 3) ;;
      Ret (head +:+ "...")
  else Ret s.

(** [getAndParseDuration]: [Getenv] is [os.Getenv] and [ParseDuration] is
    [time.ParseDuration], [None] standing for its error. *)
Definition lowerDurationLimit : Z := 1000000000.
Definition upperDurationLimit : Z := 3600000000000.

Definition getAndParseDuration (Getenv : string -> string)
    (ParseDuration : string -> option Z) (name : string) (currValue : Z) : Z :=
  let e := Getenv name in
  if len e =? 0 then currValue
  else
    match ParseDuration e with
    | None => currValue
    | Some d =>
        if (d <? lowerDurationLimit) || (upperDurationLimit <? d) then currValue
        else d
    end.

(** The two [clean] methods: the loop over the map deletes the entries whose
    expiry is before [now]; the entries are met in the order of the map
    iteration, here the order of [map_to_list]. *)
Definition clean_step {V} (expiry : V -> Z) (now : Z)
    (cache : gmap string V) (entry : string * V) : gmap string V :=
  if Before (expiry (snd entry)) now then delete (fst entry) cache else cache.

Definition srvCache_clean (now : Z) (cache : gmap string ceSRV) : gmap string ceSRV :=
  fold_left (clean_step expires now) (map_to_list cache) cache.

Definition healthCache_clean (now : Z) (cache : gmap string ceHealth)
  : gmap string ceHealth :=
  fold_left (clean_step expiresH now) (map_to_list cache) cache.

(** [fetchAndRunHealthCheck] as it acts on its record: [prefix] is
    [t.HealthCheckTXTPrefix], [LookupTXT] the resolver ([None] for an error),
    [urlParses] tells whether [url.Parse] accepts the string, and [turns]
    are the turns of the loop the worker lives through. *)
Definition healthCheckQName (prefix host port : string) : string :=
  "_" +:+ port +:+ prefix +:+ host.

Definition set_url (hcURL : string) (ceh : ceHealth) : ceHealth :=
  mkHealth (expiresH ceh) (goodDials ceh) (failedDials ceh) (nextDialAttempt ceh)
    (lastDialAttempt ceh) (lastDialStatus ceh) (lastHealthCheck ceh)
    (lastHealthCheckStatus ceh) hcURL (unHealthy ceh).

Definition fetchAndRunHealthCheck (t : config) (prefix : string)
    (LookupTXT : string -> option (list string)) (urlParses : string -> bool)
    (healthStoreKey : string) (turns : list (Z * httpGet)) (ceh : ceHealth)
  : outcome ceHealth :=
  hp <~ unpackHealthStoreKey healthStoreKey ;;
  let '(host, port) := hp in
  let qName := healthCheckQName prefix host port in
  match LookupTXT qName with
  | None => Ret ceh
  | Some txts =>
      let hcURL := fold_right String.append "" txts in
      if len hcURL =? 0 then Ret ceh
      else
        let ceh := set_url hcURL ceh in
        let expires := expiresH ceh in
        if negb (urlParses hcURL) then Ret ceh
        else Ret (fst (healthCheckLoop t expires turns ceh))
  end.

(** The expiry of a record and what the dials recorded on it. *)
Definition same_dial_fields (a b : ceHealth) : Prop :=
  expiresH a = expiresH b /\ goodDials a = goodDials b /\
  failedDials a = failedDials b /\ nextDialAttempt a = nextDialAttempt b /\
  lastDialAttempt a = lastDialAttempt b /\ lastDialStatus a = lastDialStatus b.

(** What the least-worst loops hold after the targets [seen]: nothing chosen
    yet, or an endpoint built from a target of the groups [ps] whose next
    attempt is [snd st], the earliest of the targets seen. *)
Definition leastWorst_inv (cache : gmap string ceHealth) (now : Z)
    (ps : list cePriority) (seen : list ceTarget) (st : SRV * Z) : Prop :=
  (seen = [] -> snd st = zeroTime) /\
  (seen <> [] ->
   snd st <> zeroTime /\
   (exists cep cet, In cep ps /\ In cet (targets cep) /\ fst st = synth cep cet /\
                    nextAttempt_of cache now cet = snd st) /\
   Forall (fun x => snd st <= nextAttempt_of cache now x) seen).

(** What holds at the head of turn [i] of the loop of dialIterate started at
    turn 0: [i] dials were made and all failed; the counters, which count
    without wrap-around as long as the view has fewer than [max_int]
    endpoints, and the last error say so. *)
Definition turn_inv (w : world) (keys : gset string) (i : nat) (st : dialState) : Prop :=
  i = length (dialled st) /\
  (Z.of_nat (size keys) < max_int ->
   ls st = mkStats (Z.of_nat i) 0 0 (Z.of_nat i)) /\
  (dialled st <> [] ->
   exists msg, lastError st = Some msg /\
               systemDialContext w (pred i) (List.last (dialled st) "") = Some msg).

(** What the value sent and the state on return say of the dials made. *)
Definition turn_post (w : world) (keys : gset string) (address : string)
    (res : dialResult) (st : dialState) : Prop :=
  let n := length (dialled st) in
  match res with
  | Connected a =>
      (Z.of_nat (size keys) < max_int ->
       ls st = mkStats (Z.of_nat n) 0 1 (Z.of_nat n - 1)) /\
      systemDialContext w (pred n) a = None /\
      lastError st = None /\
      exists ceh, cache st !! a = Some ceh /\
        nextDialAttempt ceh = zeroTime /\ lastDialAttempt ceh = clock_dial w (pred n) /\
        lastDialStatus ceh = ""
  | AllUniqueTargetsFailed address' _ tried le =>
      (Z.of_nat (size keys) < max_int ->
       ls st = mkStats (Z.of_nat n + 1) 1 0 (Z.of_nat n)) /\
      address' = address /\ 1 <= tried /\
      exists msg, le = Some msg /\
                  systemDialContext w (pred n) (List.last (dialled st) "") = Some msg
  end.

(** The endpoint of a stored target, and the endpoint populate stores for a
    record. *)
Definition target_key (cet : ceTarget) : string * Z := (target cet, port cet).
Definition record_key (r : SRV) : string * Z := (ToLower (Target r), Port r).

(** The loop of [srvCache.clean] when the map iteration meets the entries in
    the order [order]. The loop deletes only the entry it is at, so every
    entry of the map is met once, and [order] is a permutation of the
    entries. *)
Definition srvCache_clean_in (order : list (string * ceSRV)) (now : Z)
    (cache : gmap string ceSRV) : gmap string ceSRV :=
  fold_left (clean_step expires now) order cache.

(** A view of three groups, and a health store in which no target of the
    first group is usable at 1000 ([a:1] is vetoed by a failed dial, [a2:1]
    failed its health check), [b:2] of the second group failed its health
    check and [b2:2] has no record. *)
Definition three_groups : ceSRV :=
  populate sort_by_priority (fresh_view 0)
    [mkSRV "c" 3 2 1; mkSRV "a" 1 0 1; mkSRV "b" 2 1 1; mkSRV "a2" 1 0 1;
     mkSRV "b2" 2 1 1].

Definition first_group_down : gmap string ceHealth :=
  <["a:1" := mkHealth 9000 0 1 61000 1000 "refused" 0 "" "" false]>
    (<["a2:1" := mkHealth 9000 0 0 0 0 "" 900 "503 Service Unavailable" "http://a2/hc" true]>
       (<["b:2" := mkHealth 9000 0 0 0 0 "" 900 "503 Service Unavailable" "http://b/hc"
                     true]> ∅)).

(** An SRV cache of two views: the first expires at 500, the second at 2000. *)
Definition two_views : gmap string ceSRV :=
  <["_http._tcp.a" := fresh_view 500]> (<["_http._tcp.b" := fresh_view 2000]> ∅).

(** * Properties *)

(** Goals that say a sum stays within [int]. *)
Ltac int_range := unfold is_int, min_int, max_int, max_records in *; lia.

(** ** Strings *)

Lemma len_nonneg s : 0 <= len s.
Proof. unfold len. lia. Qed.

Lemma len_String c s : len (String c s) = 1 + len s.
Proof. unfold len. simpl String.length. lia. Qed.

Lemma len_app s1 s2 : len (s1 +:+ s2) = len s1 + len s2.
Proof.
  induction s1 as [|c s1 IH].
  - change ("" +:+ s2) with s2. change (len "") with 0. lia.
  - change (String c s1 +:+ s2) with (String c (s1 +:+ s2)).
    rewrite !len_String, IH. lia.
Qed.

Lemma len_0 s : len s = 0 -> s = "".
Proof. destruct s; [easy|]. rewrite len_String. pose proof (len_nonneg s). lia. Qed.

Lemma prefix_colon c s : String.prefix ":" (String c s) = Ascii.eqb c ":"%char.
Proof.
  change (String.prefix ":" (String c s))
    with (if ascii_dec ":" c then String.prefix "" s else false).
  destruct (ascii_dec ":" c) as [<-|Hne].
  - now destruct s.
  - symmetry. apply Ascii.eqb_neq. congruence.
Qed.

Lemma LastIndex_at_bounds s : forall i,
  LastIndex_at i s ":" = -1 \/ i <= LastIndex_at i s ":" < i + len s.
Proof.
  induction s as [|c s IH]; intros i; cbn [LastIndex_at].
  - now left.
  - rewrite len_String. destruct (IH (i + 1)) as [E|B].
    + rewrite E. rewrite (eq_refl : (0 <=? -1) = false).
      rewrite prefix_colon. destruct (Ascii.eqb c ":"); [right|left]; [|easy].
      pose proof (len_nonneg s). lia.
    + destruct (0 <=? LastIndex_at (i + 1) s ":") eqn:E.
      * right. lia.
      * rewrite prefix_colon. destruct (Ascii.eqb c ":"); [right|left]; [|easy].
        pose proof (len_nonneg s). lia.
Qed.

Lemma LastIndex_at_no_colon s : forall i,
  no_colon s -> LastIndex_at i s ":" = -1.
Proof.
  induction s as [|c s IH]; intros i H; cbn [LastIndex_at no_colon] in *; [easy|].
  destruct H as [Hc Hs]. rewrite (IH (i + 1) Hs). rewrite (eq_refl : (0 <=? -1) = false).
  rewrite prefix_colon. now apply Ascii.eqb_neq in Hc as ->.
Qed.

(** The last colon of [h:p], when [p] has none, is at [len h]. *)
Lemma LastIndex_at_split h p : forall i,
  0 <= i -> no_colon p -> LastIndex_at i (h +:+ String ":" p) ":" = i + len h.
Proof.
  induction h as [|c h IH]; intros i Hi Hp.
  - change ("" +:+ String ":" p) with (String ":" p).
    cbn [LastIndex_at]. rewrite (LastIndex_at_no_colon p (i + 1) Hp).
    rewrite (eq_refl : (0 <=? -1) = false).
    rewrite prefix_colon, Ascii.eqb_refl. change (len "") with 0. lia.
  - change (String c h +:+ String ":" p) with (String c (h +:+ String ":" p)).
    cbn [LastIndex_at]. rewrite (IH (i + 1)) by (lia || easy).
    rewrite len_String. pose proof (len_nonneg h).
    destruct (0 <=? i + 1 + len h) eqn:E; [lia|lia].
Qed.

Lemma take_str_app h s : take_str (String.length h) (h +:+ s) = h.
Proof. induction h as [|c h IH]; simpl; [now destruct s|now rewrite IH]. Qed.

Lemma drop_str_app h s : drop_str (String.length h) (h +:+ s) = s.
Proof. induction h as [|c h IH]; simpl; [easy|now rewrite IH]. Qed.

Lemma take_str_all s : take_str (String.length s) s = s.
Proof. induction s as [|c s IH]; simpl; [easy|now rewrite IH]. Qed.

Lemma slice_to_app h s : slice_to (h +:+ s) (len h) = Ret h.
Proof.
  unfold slice_to, slice. rewrite len_app.
  pose proof (len_nonneg h). pose proof (len_nonneg s).
  assert ((0 <=? 0) && (0 <=? len h) && (len h <=? len h + len s) = true) as ->.
  { rewrite !andb_true_iff, !Z.leb_le. lia. }
  f_equal. simpl drop_str. replace (Z.to_nat (len h - 0)) with (String.length h)
    by (unfold len; lia).
  apply take_str_app.
Qed.

Lemma slice_from_app h s : slice_from (h +:+ s) (len h) = Ret s.
Proof.
  unfold slice_from, slice. rewrite len_app.
  pose proof (len_nonneg h). pose proof (len_nonneg s).
  assert ((0 <=? len h) && (len h <=? len h + len s) && (len h + len s <=? len h + len s) = true) as ->.
  { rewrite !andb_true_iff, !Z.leb_le. lia. }
  f_equal. replace (Z.to_nat (len h)) with (String.length h) by (unfold len; lia).
  rewrite drop_str_app.
  replace (Z.to_nat (len h + len s - len h)) with (String.length s) by (unfold len; lia).
  apply take_str_all.
Qed.

Lemma byte_at_0 c s : byte_at (String c s) 0 = Ret c.
Proof.
  unfold byte_at. rewrite len_String. pose proof (len_nonneg s).
  assert ((0 <=? 0) && (0 <? 1 + len s) = true) as ->.
  { rewrite andb_true_iff, Z.leb_le, Z.ltb_lt. lia. }
  reflexivity.
Qed.

Lemma ToLower_nonempty s : s <> "" -> ToLower s <> "".
Proof. destruct s; simpl; congruence. Qed.

Lemma append_assoc_str s1 s2 s3 : (s1 +:+ s2) +:+ s3 = s1 +:+ (s2 +:+ s3).
Proof.
  induction s1 as [|c s1 IH]; [reflexivity|].
  change ((String c s1 +:+ s2) +:+ s3) with (String c ((s1 +:+ s2) +:+ s3)).
  now rewrite IH.
Qed.

Lemma slice_defined s lo hi :
  0 <= lo -> lo <= hi -> hi <= len s -> exists r, slice s lo hi = Ret r.
Proof.
  intros H1 H2 H3. unfold slice.
  assert ((0 <=? lo) && (lo <=? hi) && (hi <=? len s) = true) as ->.
  { rewrite !andb_true_iff, !Z.leb_le. lia. }
  eauto.
Qed.

Lemma LastIndex_at_none s : forall i,
  0 <= i -> LastIndex_at i s ":" = -1 -> no_colon s.
Proof.
  induction s as [|c s IH]; intros i Hi; cbn [LastIndex_at no_colon]; [easy|].
  destruct (LastIndex_at_bounds s (i + 1)) as [E|B].
  - rewrite E, (eq_refl : (0 <=? -1) = false), prefix_colon.
    destruct (Ascii.eqb c ":") eqn:Ec; [lia|].
    intros _. split; [now apply Ascii.eqb_neq|]. apply (IH (i + 1)); [lia|easy].
  - destruct (0 <=? LastIndex_at (i + 1) s ":") eqn:E; [lia|].
    apply Z.leb_gt in E. lia.
Qed.

(** A colon found at [r]: the string splits there and no colon follows. *)
Lemma LastIndex_at_found s : forall i,
  0 <= i -> 0 <= LastIndex_at i s ":" ->
  exists h p, s = h +:+ String ":" p /\ LastIndex_at i s ":" = i + len h /\ no_colon p.
Proof.
  induction s as [|c s IH]; intros i Hi; cbn [LastIndex_at].
  - change (String.prefix ":" "") with false. lia.
  - destruct (0 <=? LastIndex_at (i + 1) s ":") eqn:E.
    + intros _. apply Z.leb_le in E.
      destruct (IH (i + 1)) as (h & p & -> & Hr & Hp); [lia|easy|].
      exists (String c h), p. split; [reflexivity|]. split; [|easy].
      rewrite Hr, len_String. lia.
    + apply Z.leb_gt in E. rewrite prefix_colon.
      destruct (Ascii.eqb c ":") eqn:Ec; [|lia]. intros _.
      apply Ascii.eqb_eq in Ec as ->.
      exists "", s. split; [reflexivity|]. split; [change (len "") with 0; lia|].
      apply (LastIndex_at_none s (i + 1)); [lia|].
      destruct (LastIndex_at_bounds s (i + 1)); lia.
Qed.

(** ** extractHostPort *)

Section ExtractHostPortFacts.

Variable ParseIP : string -> bool.

(** A host and a port come back only from an address [host:port] whose port
    has no colon and whose host is not an IP literal. *)
Lemma extractHostPort_split address host port :
  extractHostPort ParseIP address = Ret (host, port) ->
  (host = "" /\ port = "") \/
  (address = host +:+ ":" +:+ port /\ no_colon port /\ host <> "" /\
   port <> "" /\ ParseIP host = false).
Proof.
  unfold extractHostPort. destruct address as [|c rest]; [discriminate|].
  rewrite byte_at_0. cbn [obind].
  destruct (Ascii.eqb c "["); [intros [= <- <-]; now left|].
  set (a := String c rest). unfold LastIndex.
  destruct (LastIndex_at 0 a ":" <? 1) eqn:E1; [intros [= <- <-]; now left|].
  apply Z.ltb_ge in E1.
  destruct (LastIndex_at 0 a ":" + 1 =? len a) eqn:E2; [intros [= <- <-]; now left|].
  apply Z.eqb_neq in E2.
  destruct (LastIndex_at_found a 0) as (h & p & Ha & Hr & Hp); [lia|lia|].
  rewrite Hr, Ha in *. change (0 + len h) with (len h) in *.
  rewrite slice_to_app. cbn [obind].
  replace (h +:+ String ":" p) with ((h +:+ ":") +:+ p)
    by now rewrite append_assoc_str.
  replace (len h + 1) with (len (h +:+ ":")) by (rewrite len_app; reflexivity).
  rewrite slice_from_app. cbn [obind].
  destruct (ParseIP h) eqn:Eip; intros [= <- <-]; [now left|right].
  split; [now rewrite append_assoc_str|]. split; [easy|].
  split; [intros ->; change (len "") with 0 in E1; lia|].
  split; [|easy]. intros ->. apply E2.
  rewrite len_app. change (len ":") with 1. lia.
Qed.

Lemma extractHostPort_empty_pair address :
  (exists rest, address = String "[" rest) \/
  (exists c rest, address = String c rest /\ no_colon rest) \/
  (exists s, address = s +:+ ":") \/
  (exists h p, address = h +:+ ":" +:+ p /\ no_colon p /\ ParseIP h = true) ->
  extractHostPort ParseIP address = Ret ("", "").
Proof.
intros [(rest & ->)|[(c & rest & -> & Hnc)|[(s & ->)|(h & p & -> & Hp & Hip)]]].
- unfold extractHostPort. now rewrite byte_at_0.
- unfold extractHostPort. rewrite byte_at_0. cbn [obind].
  destruct (Ascii.eqb c "["); [easy|].
  unfold LastIndex. cbn [LastIndex_at].
  rewrite (LastIndex_at_no_colon rest (0 + 1) Hnc), (eq_refl : (0 <=? -1) = false).
  now destruct (String.prefix ":" (String c rest)).
- unfold extractHostPort.
  destruct (byte_at (s +:+ ":") 0) as [|c] eqn:Eb.
  { destruct s; [discriminate Eb|].
    change (String a s +:+ ":") with (String a (s +:+ ":")) in Eb.
    now rewrite byte_at_0 in Eb. }
  cbn [obind]. destruct (Ascii.eqb c "["); [easy|].
  unfold LastIndex. rewrite (LastIndex_at_split s "" 0) by (lia || easy).
  destruct (0 + len s <? 1); [easy|].
  rewrite len_app. change (len ":") with 1.
  now rewrite (proj2 (Z.eqb_eq (0 + len s + 1) (len s + 1))) by lia.
- unfold extractHostPort.
  change (h +:+ ":" +:+ p) with (h +:+ String ":" p).
  destruct (byte_at (h +:+ String ":" p) 0) as [|c] eqn:Eb.
  { destruct h as [|a h]; [discriminate Eb|].
    change (String a h +:+ String ":" p) with (String a (h +:+ String ":" p)) in Eb.
    now rewrite byte_at_0 in Eb. }
  cbn [obind]. destruct (Ascii.eqb c "["); [easy|].
  unfold LastIndex. rewrite (LastIndex_at_split h p 0) by (lia || easy).
  change (0 + len h) with (len h).
  destruct (len h <? 1); [easy|].
  destruct (len h + 1 =? len (h +:+ String ":" p)); [easy|].
  rewrite slice_to_app. cbn [obind].
  replace (h +:+ String ":" p) with ((h +:+ ":") +:+ p)
    by now rewrite append_assoc_str.
  replace (len h + 1) with (len (h +:+ ":")) by (rewrite len_app; reflexivity).
  rewrite slice_from_app. cbn [obind]. now rewrite Hip.
Qed.

Lemma extractHostPort_returns address :
  address <> "" -> exists host port, extractHostPort ParseIP address = Ret (host, port).
Proof.
intros Hne. unfold extractHostPort. destruct address as [|c rest]; [easy|].
rewrite byte_at_0. cbn [obind].
destruct (Ascii.eqb c "["); [eauto|].
set (a := String c rest). unfold LastIndex.
destruct (LastIndex_at 0 a ":" <? 1) eqn:E1; [eauto|]. apply Z.ltb_ge in E1.
destruct (LastIndex_at 0 a ":" + 1 =? len a) eqn:E2; [eauto|].
destruct (LastIndex_at_bounds a 0) as [E|B]; [lia|].
destruct (slice_defined a 0 (LastIndex_at 0 a ":")) as [host Hh]; [lia..|].
destruct (slice_defined a (LastIndex_at 0 a ":" + 1) (len a)) as [port Hp]; [lia..|].
unfold slice_to, slice_from. rewrite Hh, Hp. cbn [obind].
destruct (ParseIP host); eauto.
Qed.

(** C10: on a non-empty address extractHostPort returns a pair, every index
    and slice being in range; the pair is empty when the address starts with
    a bracket, has no colon from index 1 on, ends with a colon, or has an IP
    literal before its last colon. On the empty address the read of
    [address[0]] panics, and so does dialContext, which lower-cases the
    address of its caller and hands it over. *)
Theorem extractHostPort_nonempty (address : string) (Hne : address <> "") :
  (exists host port, extractHostPort ParseIP address = Ret (host, port)) /\
  ((exists rest, address = String "[" rest) \/
   (exists c rest, address = String c rest /\ no_colon rest) \/
   (exists s, address = s +:+ ":") \/
   (exists h p, address = h +:+ ":" +:+ p /\ no_colon p /\ ParseIP h = true) ->
   extractHostPort ParseIP address = Ret ("", "")) /\
  (forall t, exists r, dialContext_route ParseIP t address = Ret r) /\
  extractHostPort ParseIP "" = Panic /\
  (forall t, dialContext_route ParseIP t "" = Panic).
Proof.
split; [now apply extractHostPort_returns|].
split; [apply extractHostPort_empty_pair|].
split; [|split; [reflexivity|intros t; reflexivity]].
intros t. unfold dialContext_route.
destruct (extractHostPort_returns (ToLower address)) as (host & port & ->).
{ now apply ToLower_nonempty. }
cbn [obind].
match goal with |- context [if ?b then Ret PassThru else _] => destruct b end; eauto.
Qed.

End ExtractHostPortFacts.

Lemma extractHostPort_nonempty_witness :
  exists host port,
    extractHostPort (fun _ => false) "example.com:80" = Ret (host, port).
Proof.
exact (proj1 (extractHostPort_nonempty (fun _ => false) "example.com:80"
                ltac:(discriminate))).
Defined.


(** ** setDialResult *)

Lemma int_wrap_id z : is_int z -> int_wrap z = z.
Proof.
  unfold is_int, min_int, max_int, int_wrap. intros H.
  rewrite Z.mod_small by lia. lia.
Qed.

Lemma int_add_small a b : is_int (a + b) -> int_add a b = a + b.
Proof. apply int_wrap_id. Qed.

(** C4: recording a dial outcome for [host:port] leaves a record under its
    key, built from the record that was there or from a fresh one; a success
    clears [nextDialAttempt] and adds one to [goodDials]; a failure sets
    [nextDialAttempt] to [now + dialVeto], which is later than [now] by the
    veto, and adds one to [failedDials]; the records under other keys are
    unchanged. The counters are assumed below the largest [int] and the veto
    positive, as the configuration has it. *)
Theorem setDialResult_records (t : config) (now : Z) (host : string) (port : Z)
    (err : option string) (cache : gmap string ceHealth)
    (Hveto : 0 < DialVetoDuration t)
    (Hcount : forall ceh, cache !! makeHealthStoreKey host port = Some ceh ->
                0 <= goodDials ceh < max_int /\ 0 <= failedDials ceh < max_int) :
  let key := makeHealthStoreKey host port in
  let cache' := fst (setDialResult t now host port err cache) in
  let before := default (new_ceHealth (Add now (HealthTTL t))) (cache !! key) in
  (exists ceh, cache' !! key = Some ceh /\
     lastDialAttempt ceh = now /\
     match err with
     | None =>
         nextDialAttempt ceh = zeroTime /\
         goodDials ceh = goodDials before + 1 /\
         failedDials ceh = failedDials before
     | Some _ =>
         nextDialAttempt ceh = now + DialVetoDuration t /\
         now < nextDialAttempt ceh /\
         DialVetoDuration t <= nextDialAttempt ceh - now /\
         failedDials ceh = failedDials before + 1 /\
         goodDials ceh = goodDials before
     end) /\
  (forall k, k <> key -> cache' !! k = cache !! k).
Proof.
  intros key cache' before. subst cache'. unfold setDialResult. fold key.
  assert (Hb : 0 <= goodDials before < max_int /\ 0 <= failedDials before < max_int).
  { subst before. destruct (cache !! key) as [ceh|] eqn:E; simpl.
    - now apply Hcount.
    - unfold max_int. lia. }
  assert (Hsel :
    (let '(ceh, _) :=
       match cache !! key with
       | Some ceh => (ceh, [])
       | None => (new_ceHealth (Add now (HealthTTL t)),
                  if negb (DisableHealthChecks t) then [key] else [])
       end in ceh) = before).
  { subst before. now destruct (cache !! key). }
  destruct (match cache !! key with
            | Some ceh => (ceh, [])
            | None => (new_ceHealth (Add now (HealthTTL t)),
                       if negb (DisableHealthChecks t) then [key] else [])
            end) as [ceh0 st0]. simpl in Hsel. subst ceh0.
  cbn [fst]. split.
  - eexists. split; [apply lookup_insert_eq|].
    destruct err as [msg|]; cbn.
    + rewrite int_add_small by int_range.
      unfold Add. repeat split; lia.
    + rewrite int_add_small by int_range.
      repeat split; lia.
  - intros k Hk. now rewrite lookup_insert_ne.
Qed.

Lemma setDialResult_records_witness :
  exists ceh,
    fst (setDialResult default_config 1000 "s1" 4000 (Some "refused") ∅)
      !! makeHealthStoreKey "s1" 4000 = Some ceh /\
    nextDialAttempt ceh = 1000 + 60000000000.
Proof.
  destruct (setDialResult_records default_config 1000 "s1" 4000 (Some "refused") ∅)
    as [(ceh & Hl & _ & Hn & _) _].
  - reflexivity.
  - intros ceh H. rewrite lookup_empty in H. discriminate H.
  - exists ceh. split; [exact Hl|exact Hn].
Defined.

(** ** The loop of the health check *)

Lemma prefix_app sub s : String.prefix sub (sub +:+ s) = true.
Proof.
  induction sub as [|c sub IH]; [now destruct s|].
  change (String c sub +:+ s) with (String c (sub +:+ s)).
  change (String.prefix (String c sub) (String c (sub +:+ s)))
    with (if ascii_dec c c then String.prefix sub (sub +:+ s) else false).
  destruct (ascii_dec c c); [exact IH|congruence].
Qed.

Lemma prefix_split sub : forall s,
  String.prefix sub s = true -> exists b, s = sub +:+ b.
Proof.
  induction sub as [|c sub IH]; intros s H; [now exists s|].
  destruct s as [|d s]; [discriminate H|].
  change (String.prefix (String c sub) (String d s))
    with (if ascii_dec c d then String.prefix sub s else false) in H.
  destruct (ascii_dec c d) as [->|]; [|discriminate H].
  destruct (IH s H) as [b ->]. now exists b.
Qed.

(** [Contains] is the substring test. *)
Lemma Contains_spec s sub :
  Contains s sub = true <-> exists a b, s = a +:+ sub +:+ b.
Proof.
  split.
  - induction s as [|c s IH]; cbn [Contains]; rewrite orb_true_iff.
    + intros [H|H]; [|discriminate H].
      destruct (prefix_split _ _ H) as [b ->]. now exists "", b.
    + intros [H|H].
      * destruct (prefix_split _ _ H) as [b E]. exists "", b. exact E.
      * destruct (IH H) as (a & b & ->). now exists (String c a), b.
  - intros (a & b & ->). induction a as [|c a IH].
    + change ("" +:+ sub +:+ b) with (sub +:+ b).
      destruct (sub +:+ b) eqn:E; cbn [Contains]; rewrite <- E, prefix_app; reflexivity.
    + change (String c a +:+ sub +:+ b) with (String c (a +:+ sub +:+ b)).
      cbn [Contains]. rewrite IH. apply orb_true_r.
Qed.

(** C8, as the code has it: in a turn of the loop that finds the record not
    expired, an error of the GET marks the record unhealthy, records the
    error string and the time, and ends the worker; a response whose body
    was read sets the flag exactly when the status is not 200 or the body
    lacks the OK phrase, records the status line and the time, and the loop
    goes on; a response whose body could not be read leaves the record as it
    was, and the loop goes on. *)
Theorem healthCheckIteration_outcomes (t : config) (expires now : Z) (ceh : ceHealth)
    (Hlive : now <= expires) :
  (forall msg,
     let r := healthCheckIteration t expires now (GetError msg) ceh in
     snd r = Return /\ unHealthy (fst r) = true /\
     lastHealthCheckStatus (fst r) = msg /\ lastHealthCheck (fst r) = now) /\
  (forall code status body,
     let r := healthCheckIteration t expires now (GetResponse code status body false) ceh in
     snd r = Continue /\
     (unHealthy (fst r) = true <->
      code <> 200 \/ ~ (exists a b, body = a +:+ HealthCheckContentOk t +:+ b)) /\
     lastHealthCheckStatus (fst r) = status /\ lastHealthCheck (fst r) = now) /\
  (forall code status body,
     healthCheckIteration t expires now (GetResponse code status body true) ceh
     = (ceh, Continue)) /\
  (forall get,
     let r := healthCheckIteration t expires now get ceh in
     expiresH (fst r) = expiresH ceh /\ goodDials (fst r) = goodDials ceh /\
     failedDials (fst r) = failedDials ceh /\
     nextDialAttempt (fst r) = nextDialAttempt ceh /\
     lastDialAttempt (fst r) = lastDialAttempt ceh /\
     lastDialStatus (fst r) = lastDialStatus ceh /\ url (fst r) = url ceh).
Proof.
  assert (E : Before expires now = false) by (apply Z.ltb_ge; exact Hlive).
  unfold healthCheckIteration. rewrite E. repeat split.
  - cbn. destruct (code =? StatusOK) eqn:Ec; cbn.
    + apply Z.eqb_eq in Ec. unfold StatusOK in Ec.
      rewrite negb_true_iff. intros Hc. right. rewrite <- Contains_spec. congruence.
    + intros _. left. apply Z.eqb_neq in Ec. exact Ec.
  - cbn. intros [Hc|Hb].
    + apply Z.eqb_neq in Hc. unfold StatusOK. now rewrite Hc.
    + rewrite <- Contains_spec in Hb. apply not_true_is_false in Hb.
      rewrite Hb. now rewrite andb_false_r.
  - destruct get as [msg|code status body [|]]; reflexivity.
  - destruct get as [msg|code status body [|]]; reflexivity.
  - destruct get as [msg|code status body [|]]; reflexivity.
  - destruct get as [msg|code status body [|]]; reflexivity.
  - destruct get as [msg|code status body [|]]; reflexivity.
  - destruct get as [msg|code status body [|]]; reflexivity.
  - destruct get as [msg|code status body [|]]; reflexivity.
Qed.

Lemma healthCheckIteration_outcomes_witness :
  healthCheckIteration default_config 1000 5
    (GetResponse 200 "200 OK" "not today" true) (new_ceHealth 1000)
  = (new_ceHealth 1000, Continue).
Proof.
  exact (proj1 (proj2 (proj2
    (healthCheckIteration_outcomes default_config 1000 5 (new_ceHealth 1000)
       ltac:(lia)))) 200 "200 OK" "not today").
Defined.

(** A response with status 500 whose body cannot be read: the flag is not
    set and neither the status nor the time is recorded. *)
Lemma healthCheckIteration_unread_body :
  let r := healthCheckIteration default_config 1000 5
             (GetResponse 500 "500 Internal Server Error" "" true)
             (new_ceHealth 1000) in
  ~ ((unHealthy (fst r) = true <-> 500 <> 200 \/ Contains "" "OK" = false) /\
     lastHealthCheckStatus (fst r) = "500 Internal Server Error" /\
     lastHealthCheck (fst r) = 5 /\ snd r = Continue).
Proof.
  cbv zeta. intros [[_ H] _].
  assert (Hu : unHealthy (fst (healthCheckIteration default_config 1000 5
             (GetResponse 500 "500 Internal Server Error" "" true)
             (new_ceHealth 1000))) = false) by reflexivity.
  rewrite H in Hu; [discriminate Hu|]. left. lia.
Qed.

(** ** lookupSRV: the expiry of the view *)

(** The count stored on the view is the number of its distinct keys. *)
Lemma resolve_view_uniqueTargets sortSlice LookupSRV t now key :
  uniqueTargets (resolve_view sortSlice LookupSRV t now key) =
  Z.of_nat (size (uniqueTargetKeys (resolve_view sortSlice LookupSRV t now key))).
Proof. reflexivity. Qed.

(** C6, as the code has it: on a cache miss the view stored under the key and
    returned expires at [now + foundSRVTTL] when the resolver returned at
    least one record, whether or not a target survives population, and at
    [now + notFoundSRVTTL] when it returned none; a view with a target
    always has the first expiry. *)
Theorem lookupSRV_expires (sortSlice : list SRV -> list SRV)
    (LookupSRV : string -> list SRV) (t : config) (now : Z)
    (service proto domain : string) (st : stores)
    (Hmiss : srvStore st !! srvKey service proto domain = None) :
  let key := srvKey service proto domain in
  let r := lookupSRV sortSlice LookupSRV t now service proto domain st in
  let cesrv := fst (fst r) in
  srvStore (snd (fst r)) !! key = Some cesrv /\
  expires cesrv =
    (if decide (LookupSRV key = []) then now + NotFoundSRVTTL t
     else now + FoundSRVTTL t) /\
  (allTargets cesrv <> [] -> expires cesrv = now + FoundSRVTTL t).
Proof.
  cbv zeta. unfold lookupSRV. rewrite Hmiss.
  set (key := srvKey service proto domain).
  destruct (populateHealthStore t now
              (elements (uniqueTargetKeys (resolve_view sortSlice LookupSRV t now key)))
              (healthStore st)) as [health started].
  cbn [fst snd srvStore]. split; [apply lookup_insert_eq|].
  unfold resolve_view, populate, populate_sorted, allTargets.
  destruct (LookupSRV key) as [|srv rest]; cbn [length expires priorities].
  - rewrite decide_True by reflexivity. split; [reflexivity|].
    intros H. now contradiction H.
  - rewrite decide_False by discriminate.
    rewrite (proj2 (Z.ltb_lt 0 (Z.of_nat (S (length rest))))) by lia.
    cbn [expires]. split; [reflexivity|]. intros _. reflexivity.
Qed.

Lemma lookupSRV_expires_witness :
  expires (fst (fst (lookupSRV sort_by_priority
                       (fun _ => [mkSRV "t1.example.net" 1 10 20])
                       default_config 7 "http" "tcp" "example.net"
                       (mkStores ∅ ∅))))
  = 7 + 300000000000.
Proof.
  destruct (lookupSRV_expires sort_by_priority
              (fun _ => [mkSRV "t1.example.net" 1 10 20])
              default_config 7 "http" "tcp" "example.net" (mkStores ∅ ∅))
    as (_ & H & _).
  - apply lookup_empty.
  - exact H.
Defined.

(** The resolver answers with one record whose target is empty: no target
    survives population and yet the view expires at [now + foundSRVTTL]. *)
Lemma lookupSRV_empty_target_expiry :
  let cesrv := fst (fst (lookupSRV sort_by_priority (fun _ => [mkSRV "" 0 0 0])
                           default_config 7 "http" "tcp" "empty.example.org"
                           (mkStores ∅ ∅))) in
  allTargets cesrv = [] /\
  expires cesrv <> 7 + NotFoundSRVTTL default_config /\
  expires cesrv = 7 + FoundSRVTTL default_config.
Proof.
  cbv zeta. unfold lookupSRV. cbn [srvStore healthStore].
  rewrite (lookup_empty (srvKey "http" "tcp" "empty.example.org")).
  destruct (populateHealthStore _ _ _ _) as [health started]. cbn [fst].
  split; [reflexivity|]. split; [|reflexivity].
  unfold resolve_view. cbn. discriminate.
Qed.

(** ** bestTarget: the weight reported *)

(** Every endpoint [bestTarget] returns is built by [synth], which converts
    the stored weight to [uint16] before it divides by 1000. *)
Lemma synth_Weight cep cet :
  Weight (synth cep cet) = (weight cet mod 2 ^ 16) / 1000.
Proof. reflexivity. Qed.

(** C7 at a record of weight 66: the stored weight is 66000, which divided
    by 1000 is 66, and the weight reported is 0, since 66000 does not fit
    [uint16] (66000 mod 65536 = 464). *)
Lemma bestTarget_weight_66 :
  let cesrv := populate sort_by_priority (fresh_view 0) [mkSRV "a.example.net" 80 0 66] in
  priorities cesrv = [mkPriority 0 66000 [mkTarget 66000 80 "a.example.net"]] /\
  bestTarget ∅ 1 (fun _ => 0) cesrv = Ret (Some (mkSRV "a.example.net" 80 0 0)) /\
  66000 / smallChanceMultiplier = 66.
Proof. cbv zeta. split; [|split]; vm_compute; reflexivity. Qed.

(** ** bestTarget: the least-worst pass *)

(** C1 at a view of two unhealthy targets, the first with a zero
    [nextDialAttempt]: no target is eligible, [a:1] has the smallest
    [nextDialAttempt], and [bestTarget] returns [b:2]. The first target sets
    [smallestLeastWorst] to the zero time, which the test [IsZero] takes for
    "not set yet", so the next target replaces it. *)
Lemma bestTarget_least_worst_zero :
  priorities two_targets = [mkPriority 0 2000 [mkTarget 1000 1 "a"; mkTarget 1000 2 "b"]] /\
  usable two_unhealthy 1000 (mkTarget 1000 1 "a") = false /\
  usable two_unhealthy 1000 (mkTarget 1000 2 "b") = false /\
  nextAttempt_of two_unhealthy 1000 (mkTarget 1000 1 "a") = 0 /\
  nextAttempt_of two_unhealthy 1000 (mkTarget 1000 2 "b") = 61000 /\
  bestTarget two_unhealthy 1000 (fun _ => 0) two_targets = Ret (Some (mkSRV "b" 2 0 1)).
Proof. repeat split; vm_compute; reflexivity. Qed.

(** ** bestTarget: what it returns *)

Lemma picked_cons cache now cep cet ts srv :
  picked cache now cep ts srv -> picked cache now cep (cet :: ts) srv.
Proof. intros (c & Hin & E & U). exists c. split; [now right|easy]. Qed.

Lemma scan_targets_spec cache now wix cep ts : forall lower upper srv have,
  match scan_targets cache now wix cep ts lower upper srv have with
  | inl found => picked cache now cep ts found
  | inr (srv', have') =>
      (have' = have /\ srv' = srv /\
       (have = false -> Forall (fun cet => usable cache now cet = false) ts)) \/
      (have = false /\ have' = true /\ picked cache now cep ts srv')
  end.
Proof.
  induction ts as [|cet ts IH]; intros lower upper srv have; cbn [scan_targets].
  - left. repeat split. intros _. constructor.
  - destruct (usable cache now cet) eqn:U.
    + destruct ((lower <=? wix) && (wix <? int_add upper (weight cet))).
      * exists cet. split; [now left|easy].
      * destruct have; cbn [negb].
        -- specialize (IH (int_add upper (weight cet)) (int_add upper (weight cet)) srv true).
           destruct (scan_targets _ _ _ _ ts _ _ srv true) as [found|[srv' have']].
           ++ now apply picked_cons.
           ++ destruct IH as [(-> & -> & _)|(H & _)]; [|discriminate H].
              left. repeat split. discriminate.
        -- specialize (IH (int_add upper (weight cet)) (int_add upper (weight cet))
                          (synth cep cet) true).
           destruct (scan_targets _ _ _ _ ts _ _ (synth cep cet) true) as [found|[srv' have']].
           ++ now apply picked_cons.
           ++ destruct IH as [(-> & -> & _)|(H & _)]; [|discriminate H].
              right. repeat split. exists cet. split; [now left|easy].
    + specialize (IH (int_add upper (weight cet)) (int_add upper (weight cet)) srv have).
      destruct (scan_targets _ _ _ _ ts _ _ srv have) as [found|[srv' have']].
      * now apply picked_cons.
      * destruct IH as [(-> & -> & F)|(-> & -> & P)].
        -- left. repeat split. intros H. constructor; [exact U|now apply F].
        -- right. repeat split. now apply picked_cons.
Qed.

Lemma scan_priorities_spec cache now pk ps : forall i srv,
  weights_ok ps ->
  exists r, scan_priorities cache now pk i ps srv false = Ret r /\
    match r with
    | inl found => exists cep, In cep ps /\ picked cache now cep (targets cep) found
    | inr (srv', have') =>
        srv' = srv /\ have' = false /\
        Forall (fun cep => Forall (fun cet => usable cache now cet = false) (targets cep)) ps
    end.
Proof.
  induction ps as [|cep ps IH]; intros i srv Hw; cbn [scan_priorities].
  - eexists. split; [reflexivity|]. repeat split. constructor.
  - inversion Hw as [|? ? Hc Hps]; subst.
    unfold randIntn. rewrite (proj2 (Z.leb_gt (totalWeight cep) 0)) by lia.
    cbn [obind].
    pose proof (scan_targets_spec cache now (pk i mod totalWeight cep) cep
                  (targets cep) 0 0 srv false) as S.
    destruct (scan_targets _ _ _ cep (targets cep) 0 0 srv false) as [found|[srv' have']].
    + eexists. split; [reflexivity|]. exists cep. split; [now left|exact S].
    + destruct S as [(-> & -> & F)|(_ & -> & P)].
      * destruct (IH (S i) srv Hps) as (r & E & Hr). rewrite E.
        exists r. split; [reflexivity|].
        destruct r as [found|[srv' have']].
        -- destruct Hr as (c & Hin & P). exists c. split; [now right|exact P].
        -- destruct Hr as (-> & -> & G). repeat split. constructor; [now apply F|exact G].
      * eexists. split; [reflexivity|]. exists cep. split; [now left|exact P].
Qed.

Lemma leastWorst_targets_spec cache now cep ts : forall st,
  let st' := leastWorst_targets cache now cep ts st in
  (st' = st /\ (ts = [] \/ IsZero (snd st) = false)) \/
  (exists cet, In cet ts /\ fst st' = synth cep cet).
Proof.
  induction ts as [|cet ts IH]; intros st; cbn [leastWorst_targets].
  - left. split; [reflexivity|now left].
  - cbv zeta.
    destruct (IsZero (snd st) || Before (nextAttempt_of cache now cet) (snd st)) eqn:E.
    + right. specialize (IH (synth cep cet, nextAttempt_of cache now cet)).
      cbv zeta in IH. destruct IH as [[-> _]|(c & Hin & Ec)].
      * exists cet. split; [now left|reflexivity].
      * exists c. split; [now right|exact Ec].
    + apply orb_false_iff in E as [Ez _]. specialize (IH st). cbv zeta in IH.
      destruct IH as [[-> _]|(c & Hin & Ec)].
      * left. split; [reflexivity|now right].
      * right. exists c. split; [now right|exact Ec].
Qed.

Lemma leastWorst_spec cache now ps : forall st,
  let st' := leastWorst cache now ps st in
  (st' = st /\ (Forall (fun cep => targets cep = []) ps \/ IsZero (snd st) = false)) \/
  from_view ps (fst st').
Proof.
  unfold leastWorst.
  induction ps as [|cep ps IH]; intros st; cbn [fold_left].
  - left. split; [reflexivity|]. left. constructor.
  - cbv zeta.
    pose proof (leastWorst_targets_spec cache now cep (targets cep) st) as T.
    cbv zeta in T. specialize (IH (leastWorst_targets cache now cep (targets cep) st)).
    cbv zeta in IH.
    destruct IH as [[E Z]|(c & t & Hc & Ht & Es)].
    + rewrite E. destruct T as [[T1 [Te|Tz]]|(cet & Hin & Ec)]; [rewrite T1 in *..|].
      * destruct Z as [Z|Z]; left; (split; [reflexivity|]).
        -- left. now constructor.
        -- now right.
      * left. split; [reflexivity|now right].
      * right. exists cep, cet. split; [now left|]. split; [exact Hin|exact Ec].
    + right. exists c, t. split; [now right|]. split; [exact Ht|exact Es].
Qed.

Lemma bestTarget_from_view cache now pk cesrv :
  weights_ok (priorities cesrv) -> allTargets cesrv <> [] ->
  exists srv, bestTarget cache now pk cesrv = Ret (Some srv) /\
              from_view (priorities cesrv) srv.
Proof.
  intros Hw Hne. unfold bestTarget.
  destruct (priorities cesrv) as [|cep ps] eqn:Eps.
  { unfold allTargets in Hne. rewrite Eps in Hne. now contradiction Hne. }
  rewrite <- Eps in *. 
  assert ((Z.of_nat (length (priorities cesrv)) =? 0) = false) as ->.
  { apply Z.eqb_neq. rewrite Eps. cbn [length]. lia. }
  destruct (scan_priorities_spec cache now pk (priorities cesrv) O empty_SRV Hw)
    as (r & -> & Hr).
  cbn [obind]. destruct r as [found|[srv have]].
  - exists found. split; [reflexivity|].
    destruct Hr as (c & Hc & (t & Ht & -> & _)). now exists c, t.
  - eexists. split; [reflexivity|].
    pose proof (leastWorst_spec cache now (priorities cesrv) (srv, zeroTime)) as L.
    cbv zeta in L. destruct L as [[_ [Z|Z]]|F]; [| discriminate Z | exact F].
    exfalso. apply Hne. unfold allTargets.
    clear -Z. induction Z as [|c l Hc Hl IH]; [reflexivity|].
    cbn [map concat]. now rewrite Hc, IH.
Qed.

(** C9: on a view whose groups have a positive total weight and hold a
    target each, as the groups built by populate do, bestTarget returns, and
    it returns nil exactly when the view has no priority group; with a group
    or more it returns one endpoint, built from a target of a group of the
    view. *)
Theorem bestTarget_nil_iff (cache : gmap string ceHealth) (now : Z) (pk : nat -> Z)
    (cesrv : ceSRV) (Hw : weights_ok (priorities cesrv))
    (Hts : Forall (fun cep => targets cep <> []) (priorities cesrv)) :
  exists r, bestTarget cache now pk cesrv = Ret r /\
    (r = None <-> priorities cesrv = []) /\
    (priorities cesrv <> [] ->
     exists srv, r = Some srv /\ from_view (priorities cesrv) srv).
Proof.
  destruct (priorities cesrv) as [|cep ps] eqn:Eps.
  - exists None. unfold bestTarget. rewrite Eps. split; [reflexivity|].
    split; [split; reflexivity|]. intros H. now contradiction H.
  - assert (Hne : allTargets cesrv <> []).
    { unfold allTargets. rewrite Eps. cbn [map concat].
      inversion Hts as [|? ? Hc _]; subst. destruct (targets cep); [now contradiction Hc|].
      discriminate. }
    rewrite <- Eps in Hw.
    destruct (bestTarget_from_view cache now pk cesrv Hw Hne) as (srv & E & Hv).
    exists (Some srv). split; [exact E|]. split; [split; discriminate|].
    intros _. exists srv. split; [reflexivity|]. now rewrite <- Eps.
Qed.

Lemma bestTarget_nil_iff_witness :
  exists r, bestTarget two_unhealthy 1000 (fun _ => 0) two_targets = Ret r /\
    exists srv, r = Some srv /\ from_view (priorities two_targets) srv.
Proof.
  destruct (bestTarget_nil_iff two_unhealthy 1000 (fun _ => 0) two_targets)
    as (r & E & _ & H).
  - repeat constructor.
  - repeat constructor; discriminate.
  - exists r. split; [exact E|]. apply H. discriminate.
Defined.

(** ** dialIterate *)

Lemma elem_uniqueTargetKeys_fold (k : string) (ps : list cePriority) : forall acc : gset string,
  k ∈ fold_left
        (fun dupes cep =>
           fold_left (fun dupes cet => {[ healthStoreKey cet ]} ∪ dupes) (targets cep) dupes)
        ps acc <->
  k ∈ acc \/ exists cep cet, In cep ps /\ In cet (targets cep) /\ k = healthStoreKey cet.
Proof.
  assert (inner : forall ts (acc : gset string),
            k ∈ fold_left (fun dupes cet => {[ healthStoreKey cet ]} ∪ dupes) ts acc <->
            k ∈ acc \/ exists cet, In cet ts /\ k = healthStoreKey cet).
  { induction ts as [|cet ts IH]; intros acc; cbn [fold_left].
    - split; [now left|]. intros [H|(c & [] & _)]. exact H.
    - rewrite IH, elem_of_union, elem_of_singleton. split.
      + intros [[->|H]|(c & Hin & ->)].
        * right. exists cet. split; [now left|reflexivity].
        * now left.
        * right. exists c. split; [now right|reflexivity].
      + intros [H|(c & [<-|Hin] & ->)].
        * left. now right.
        * left. now left.
        * right. now exists c. }
  induction ps as [|cep ps IH]; intros acc; cbn [fold_left].
  - split; [now left|]. intros [H|(c & t & [] & _)]. exact H.
  - rewrite IH, inner. split.
    + intros [[H|(t & Hin & ->)]|(c & t & Hc & Ht & ->)].
      * now left.
      * right. exists cep, t. split; [now left|easy].
      * right. exists c, t. split; [now right|easy].
    + intros [H|(c & t & [<-|Hc] & Ht & ->)].
      * left. now left.
      * left. right. now exists t.
      * right. now exists c, t.
Qed.

Lemma elem_uniqueTargetKeys k cesrv :
  k ∈ uniqueTargetKeys cesrv <->
  exists cep cet, In cep (priorities cesrv) /\ In cet (targets cep) /\ k = healthStoreKey cet.
Proof.
  unfold uniqueTargetKeys. rewrite elem_uniqueTargetKeys_fold. split.
  - intros [H|H]; [|exact H]. now apply not_elem_of_empty in H.
  - intros H. now right.
Qed.

(** The address dialled for a target is the key of the target in the health
    store, when the port is a [uint16]. *)
Lemma synth_address cep cet :
  is_uint16 (port cet) ->
  Target (synth cep cet) +:+ ":" +:+ fmt_d (Port (synth cep cet)) = healthStoreKey cet.
Proof.
  intros [H0 H1]. unfold healthStoreKey, makeHealthStoreKey, synth, FormatUint, fmt_d.
  cbn [Target Port]. unfold uint16, uint64.
  rewrite (Z.mod_small (port cet) (2 ^ 16)) by lia.
  rewrite (Z.mod_small (port cet) (2 ^ 64)) by lia.
  now rewrite (proj2 (Z.ltb_ge (port cet) 0)) by lia.
Qed.

Lemma view_ok_weights cesrv : view_ok cesrv -> weights_ok (priorities cesrv).
Proof.
  unfold view_ok, weights_ok. intros H. eapply List.Forall_impl; [|exact H].
  now intros cep [Hw _].
Qed.

Lemma uniqueTargetKeys_nonempty cesrv :
  (0 < size (uniqueTargetKeys cesrv))%nat -> allTargets cesrv <> [].
Proof.
  intros Hs Hnil.
  assert (E : uniqueTargetKeys cesrv = ∅).
  { apply set_eq. intros k. rewrite elem_uniqueTargetKeys. split.
    - intros (cep & cet & Hc & Ht & _). exfalso.
      assert (Hin : In cet (allTargets cesrv)).
      { unfold allTargets. apply in_concat. exists (targets cep).
        split; [now apply in_map|exact Ht]. }
      rewrite Hnil in Hin. exact Hin.
    - intros H. now apply not_elem_of_empty in H. }
  rewrite E, size_empty in Hs. lia.
Qed.

(** The address chosen at a turn is a key of the view. *)
Lemma bestTarget_address cache now pk cesrv :
  view_ok cesrv -> (0 < size (uniqueTargetKeys cesrv))%nat ->
  exists srv, bestTarget cache now pk cesrv = Ret (Some srv) /\
    Target srv +:+ ":" +:+ fmt_d (Port srv) ∈ uniqueTargetKeys cesrv.
Proof.
  intros Hok Hs.
  destruct (bestTarget_from_view cache now pk cesrv) as (srv & E & cep & cet & Hc & Ht & ->).
  - now apply view_ok_weights.
  - now apply uniqueTargetKeys_nonempty.
  - exists (synth cep cet). split; [exact E|].
    rewrite synth_address.
    + apply elem_uniqueTargetKeys. now exists cep, cet.
    + unfold view_ok in Hok. rewrite List.Forall_forall in Hok.
      destruct (Hok cep Hc) as [_ Hp]. rewrite List.Forall_forall in Hp. now apply Hp.
Qed.

Lemma dial_inv_size keys st :
  dial_inv keys st -> size (dupes st) = length (dialled st).
Proof. intros (-> & Hnd & _). now apply size_list_to_set. Qed.

Lemma dialIterate_from_returns t w cesrv address (Hok : view_ok cesrv)
    (Hs : (0 < size (uniqueTargetKeys cesrv))%nat) : forall fuel i st,
  dial_inv (uniqueTargetKeys cesrv) st ->
  (size (uniqueTargetKeys cesrv) - size (dupes st) < fuel)%nat ->
  exists res st',
    dialIterate_from fuel i t w cesrv address st = Some (Ret (res, st')) /\
    dial_post (uniqueTargetKeys cesrv) res st'.
Proof.
  set (keys := uniqueTargetKeys cesrv) in *.
  induction fuel as [|fuel IH]; intros i st Hinv Hfuel; [lia|].
  cbn [dialIterate_from].
  destruct (bestTarget_address (concurrent w i (cache st)) (clock_best w i) (picks w i)
              cesrv Hok Hs) as (srv & -> & Hk).
  fold keys in Hk. set (newAddress := Target srv +:+ ":" +:+ fmt_d (Port srv)) in *.
  pose proof (dial_inv_size _ _ Hinv) as Hsz.
  destruct Hinv as (Hd & Hnd & Hsub).
  assert (Hle : (size (dupes st) <= size keys)%nat) by now apply subseteq_size.
  assert (Hall : forall a, In a (dialled st) -> a ∈ keys).
  { intros a Ha. apply Hsub. rewrite Hd, elem_of_list_to_set.
    now apply list_elem_of_In. }
  destruct (decide (newAddress ∈ dupes st)) as [Hin|Hnin].
  - eexists _, _. split; [reflexivity|]. unfold dial_post. cbn [dialled].
    split; [lia|]. split; [exact Hnd|]. split; [exact Hall|].
    split; [|now rewrite Hsz].
    rewrite Hd, elem_of_list_to_set in Hin. now apply list_elem_of_In.
  - destruct (setDialResult t (clock_dial w i) (Target srv) (Port srv)
                (systemDialContext w i newAddress) (concurrent w i (cache st)))
      as [cache1 more].
    assert (Hnin' : newAddress ∉ dialled st).
    { intros H. apply Hnin. now rewrite Hd, elem_of_list_to_set. }
    assert (Hnd' : NoDup (dialled st ++ [newAddress])).
    { apply NoDup_app. split; [exact Hnd|]. split.
      - intros x Hx Hx'. apply list_elem_of_singleton in Hx'. now subst x.
      - apply NoDup_singleton. }
    assert (Hd' : {[newAddress]} ∪ dupes st = list_to_set (dialled st ++ [newAddress])).
    { rewrite list_to_set_app_L, Hd. cbn [list_to_set].
      now rewrite (right_id_L ∅ (∪)), (comm_L (∪)). }
    assert (Hsub' : {[newAddress]} ∪ dupes st ⊆ keys).
    { apply union_subseteq. split; [now apply singleton_subseteq_l|exact Hsub]. }
    assert (Hsz' : size ({[newAddress]} ∪ dupes st) = S (size (dupes st))).
    { rewrite size_union by now apply disjoint_singleton_l.
      now rewrite size_singleton. }
    assert (Hle' : (S (size (dupes st)) <= size keys)%nat).
    { rewrite <- Hsz'. now apply subseteq_size. }
    assert (Hall' : forall a, In a (dialled st ++ [newAddress]) -> a ∈ keys).
    { intros a Ha. apply in_app_or in Ha as [Ha|[<-|[]]]; [now apply Hall|exact Hk]. }
    destruct (systemDialContext w i newAddress) as [msg|].
    + apply IH.
      * split; [exact Hd'|]. split; [exact Hnd'|exact Hsub'].
      * cbn [dupes]. rewrite Hsz'. lia.
    + eexists _, _. split; [reflexivity|]. unfold dial_post. cbn [dialled].
      split; [rewrite length_app; cbn [length]; lia|].
      split; [exact Hnd'|]. split; [exact Hall'|]. now exists (dialled st).
Qed.

(** C2: on a view of [n >= 1] distinct endpoints, as population builds it,
    the loop of dialIterate returns within [n + 1] turns whatever the
    dialer, the clock, the draws and the other goroutines do, and it has
    called the dialer at most [n] times, each time with an address of the
    view it had not dialled before; it ends on a connection to the address
    dialled last, or on the exhaustion error for an address dialled before,
    carrying the number of addresses tried. *)
Theorem dialIterate_bounded (t : config) (w : world) (cesrv : ceSRV)
    (address : string) (health : gmap string ceHealth) (fuel : nat)
    (Hok : view_ok cesrv)
    (Hn : (1 <= size (uniqueTargetKeys cesrv))%nat)
    (Hfuel : (size (uniqueTargetKeys cesrv) < fuel)%nat) :
  exists res st,
    dialIterate fuel t w cesrv address health = Some (Ret (res, st)) /\
    (length (dialled st) <= size (uniqueTargetKeys cesrv))%nat /\
    NoDup (dialled st) /\
    (forall a, In a (dialled st) -> a ∈ uniqueTargetKeys cesrv) /\
    match res with
    | Connected a => exists l, dialled st = l ++ [a]
    | AllUniqueTargetsFailed _ a tried _ =>
        In a (dialled st) /\ tried = Z.of_nat (length (dialled st))
    end.
Proof.
  unfold dialIterate.
  destruct (dialIterate_from_returns t w cesrv address Hok ltac:(lia) fuel O
              (mkDialState ∅ None (mkStats 0 0 0 0) health [] []))
    as (res & st & E & P).
  - split; [reflexivity|]. split; [constructor|]. cbn [dupes]. apply empty_subseteq.
  - cbn [dupes]. rewrite size_empty. lia.
  - exists res, st. split; [exact E|exact P].
Qed.

Lemma dialIterate_bounded_witness :
  exists res st,
    dialIterate 3 default_config
      (mkWorld (fun _ _ => 0) (fun _ => 1000) (fun _ c => c)
         (fun _ _ => Some "connection refused") (fun _ => 1001))
      two_targets "example.net:80" ∅ = Some (Ret (res, st)) /\
    (length (dialled st) <= 2)%nat.
Proof.
  destruct (dialIterate_bounded default_config
              (mkWorld (fun _ _ => 0) (fun _ => 1000) (fun _ c => c)
                 (fun _ _ => Some "connection refused") (fun _ => 1001))
              two_targets "example.net:80" ∅ 3)
    as (res & st & E & L & _).
  - repeat constructor; discriminate.
  - vm_compute. lia.
  - vm_compute. lia.
  - exists res, st. split; [exact E|exact L].
Defined.

(** ** populate *)

Lemma grp_app p l1 l2 : grp p (l1 ++ l2) = grp p l1 ++ grp p l2.
Proof. apply List.filter_app. Qed.

Lemma grp_In p l r : In r (grp p l) <-> In r l /\ has_target r = true /\ Priority r = p.
Proof.
  unfold grp, keeps. rewrite List.filter_In, andb_true_iff, Z.eqb_eq. tauto.
Qed.

Lemma grp_nil p l :
  Forall (fun r => has_target r = true -> Priority r <> p) l -> grp p l = [].
Proof.
  intros H. induction H as [|r l Hr Hl IH]; [reflexivity|].
  cbn [grp List.filter]. fold (grp p l). rewrite IH. unfold keeps.
  destruct (has_target r) eqn:E; [|reflexivity].
  cbn [andb]. now rewrite (proj2 (Z.eqb_neq _ _) (Hr eq_refl)).
Qed.

Lemma grp_snoc_other p l r :
  (has_target r = true -> Priority r <> p) -> grp p (l ++ [r]) = grp p l.
Proof.
  intros H. rewrite grp_app, (grp_nil p [r]); [apply app_nil_r|].
  constructor; [exact H|constructor].
Qed.

Lemma grp_snoc_same l r :
  has_target r = true -> grp (Priority r) (l ++ [r]) = grp (Priority r) l ++ [r].
Proof.
  intros H. rewrite grp_app. f_equal. cbn [grp List.filter]. unfold keeps.
  now rewrite H, Z.eqb_refl.
Qed.

Lemma build_snoc p rs r : build p (rs ++ [r]) = add_target (build p rs) r.
Proof. unfold build. now rewrite fold_left_app. Qed.

Lemma priority_add_target c r : priority (add_target c r) = priority c.
Proof. reflexivity. Qed.

Lemma SS_snoc {A} (R : A -> A -> Prop) l x :
  StronglySorted R l -> Forall (fun y => R y x) l -> StronglySorted R (l ++ [x]).
Proof.
  induction 1 as [|a l Hl IH Ha]; intros F; cbn [app].
  - repeat constructor.
  - inversion F as [|? ? Fa Fl]; subst. constructor; [now apply IH|].
    apply Forall_app. split; [exact Ha|]. now constructor.
Qed.

Lemma SS_snoc_inv {A} (R : A -> A -> Prop) l x :
  StronglySorted R (l ++ [x]) -> StronglySorted R l /\ Forall (fun y => R y x) l.
Proof.
  induction l as [|a l IH]; cbn [app]; intros H.
  - split; constructor.
  - inversion H as [|? ? Hl Ha]; subst. destruct (IH Hl) as [Sl Fl].
    apply Forall_app in Ha as [Ha1 Ha2]. inversion Ha2; subst.
    split; constructor; assumption.
Qed.

Lemma SS_app_mid {A} (R : A -> A -> Prop) l1 x l2 :
  StronglySorted R (l1 ++ x :: l2) -> Forall (fun y => R y x) l1.
Proof.
  induction l1 as [|a l1 IH]; cbn [app]; intros H; [constructor|].
  inversion H as [|? ? Hl Ha]; subst. constructor; [|now apply IH].
  rewrite List.Forall_forall in Ha. apply Ha, in_elt.
Qed.

Lemma has_target_false r : has_target r = false -> (len (Target r) =? 0) = true.
Proof. unfold has_target. now destruct (len (Target r) =? 0). Qed.

Lemma has_target_true r : has_target r = true -> (len (Target r) =? 0) = false.
Proof. unfold has_target. now destruct (len (Target r) =? 0). Qed.

Lemma new_priority_build r : add_target (new_priority r) r = build (Priority r) [r].
Proof. reflexivity. Qed.

(** One turn of the first loop keeps [transfer_inv], when the record met
    does not precede those already seen. *)
Lemma transfer_step_inv l1 st r :
  transfer_inv l1 st ->
  Forall (fun r' => Priority r' <= Priority r) l1 ->
  transfer_inv (l1 ++ [r]) (transfer_step st r).
Proof.
  intros (Hb & Hs & Hc) Hle. unfold transfer_step.
  destruct (has_target r) eqn:Ht.
  2:{ (* a record without a target is skipped *)
    rewrite (has_target_false r Ht). split; [|split; [exact Hs|]].
    - eapply List.Forall_impl; [|exact Hb]. intros cep [E N].
      rewrite grp_snoc_other by (rewrite Ht; discriminate). now split.
    - destruct (snd st) as [c|].
      + apply Forall_app. split; [exact Hc|]. constructor; [|constructor].
        rewrite Ht. discriminate.
      + destruct Hc as [Hd Hn]. split; [exact Hd|].
        apply Forall_app. split; [exact Hn|]. now repeat constructor. }
  rewrite (has_target_true r Ht). destruct st as [done [c|]]; cbn [fst snd] in *.
  - (* a group is open *)
    unfold close_priorities in Hb, Hs. cbn [fst snd] in Hb, Hs.
    rewrite map_app in Hs. cbn [map] in Hs.
    destruct (SS_snoc_inv _ _ _ Hs) as [Hsd Hlt].
    apply Forall_app in Hb as [Hbd Hbc].
    inversion Hbc as [|? ? [Ec Nc] _]; subst.
    assert (Hcr : priority c <= Priority r).
    { destruct (grp (priority c) l1) as [|r0 rs] eqn:G; [now contradiction Nc|].
      assert (Hin : In r0 (grp (priority c) l1)) by (rewrite G; now left).
      apply grp_In in Hin as (Hin & _ & <-).
      rewrite List.Forall_forall in Hle. now apply Hle. }
    destruct (Priority r =? priority c) eqn:Ep; cbn [negb].
    + (* the record joins the open group *)
      apply Z.eqb_eq in Ep.
      unfold transfer_inv, close_priorities. cbn [fst snd].
      split; [|split].
      * apply Forall_app. split.
        -- rewrite List.Forall_forall in Hbd, Hlt |- *. intros cep Hin.
           destruct (Hbd cep Hin) as [E N].
           assert (priority cep < priority c) by (apply Hlt; now apply in_map).
           rewrite grp_snoc_other by (intros _; lia). now split.
        -- constructor; [|constructor]. rewrite priority_add_target, <- Ep.
           rewrite grp_snoc_same by exact Ht. rewrite build_snoc, Ep, <- Ec.
           split; [reflexivity|]. now destruct (grp (priority c) l1).
      * rewrite map_app. cbn [map]. rewrite priority_add_target.
        now apply SS_snoc.
      * rewrite priority_add_target. apply Forall_app. split; [exact Hc|].
        constructor; [|constructor]. intros _. lia.
    + (* the record opens a group *)
      apply Z.eqb_neq in Ep.
      unfold transfer_inv, close_priorities. cbn [fst snd].
      assert (Hnone : grp (Priority r) l1 = []).
      { apply grp_nil. rewrite List.Forall_forall in Hc |- *.
        intros r' Hin Ht'. specialize (Hc r' Hin Ht'). lia. }
      split; [|split].
      * apply Forall_app. split; [apply Forall_app; split|].
        -- rewrite List.Forall_forall in Hbd, Hlt |- *. intros cep Hin.
           destruct (Hbd cep Hin) as [E N].
           assert (priority cep < priority c) by (apply Hlt; now apply in_map).
           rewrite grp_snoc_other by (intros _; lia). now split.
        -- constructor; [|constructor].
           rewrite grp_snoc_other by (intros _; lia). now split.
        -- constructor; [|constructor]. rewrite priority_add_target.
           cbn [new_priority priority]. rewrite grp_snoc_same by exact Ht.
           rewrite Hnone. cbn [app]. split; [apply new_priority_build|discriminate].
      * rewrite !map_app. cbn [map]. rewrite priority_add_target.
        cbn [new_priority priority]. apply SS_snoc.
        -- now apply SS_snoc.
        -- apply Forall_app. split.
           ++ eapply List.Forall_impl; [|exact Hlt]. cbn. intros. lia.
           ++ constructor; [lia|constructor].
      * rewrite priority_add_target. cbn [new_priority priority].
        apply Forall_app. split.
        -- eapply List.Forall_impl; [|exact Hle]. cbn. intros. lia.
        -- constructor; [|constructor]. intros _. lia.
  - (* no group yet *)
    destruct Hc as [-> Hn].
    assert (Hnone : grp (Priority r) l1 = []).
    { apply grp_nil. eapply List.Forall_impl; [|exact Hn].
      cbn. intros r' E E'. congruence. }
    unfold transfer_inv, close_priorities. cbn [fst snd app].
    split; [|split].
    + constructor; [|constructor]. rewrite priority_add_target.
      cbn [new_priority priority]. rewrite grp_snoc_same by exact Ht.
      rewrite Hnone. cbn [app]. split; [apply new_priority_build|discriminate].
    + cbn [map]. repeat constructor.
    + rewrite priority_add_target. cbn [new_priority priority].
      apply Forall_app. split.
      * eapply List.Forall_impl; [|exact Hle]. cbn. intros. lia.
      * constructor; [|constructor]. intros _. lia.
Qed.

Lemma transfer_fold_inv l2 : forall l1 st,
  StronglySorted (fun a b => Priority a <= Priority b) (l1 ++ l2) ->
  transfer_inv l1 st ->
  transfer_inv (l1 ++ l2) (fold_left transfer_step l2 st).
Proof.
  induction l2 as [|r l2 IH]; intros l1 st Hs Hi; cbn [fold_left].
  - now rewrite app_nil_r.
  - replace (l1 ++ r :: l2) with ((l1 ++ [r]) ++ l2) in * by now rewrite <- app_assoc.
    apply IH; [exact Hs|]. apply transfer_step_inv; [exact Hi|].
    rewrite <- app_assoc in Hs. cbn [app] in Hs. now apply SS_app_mid in Hs.
Qed.

(** The groups of a sorted slice: each is built from the records of its
    priority, which are some, and the priorities increase strictly. *)
Lemma transfer_groups l :
  StronglySorted (fun a b => Priority a <= Priority b) l ->
  Forall (fun cep => cep = build (priority cep) (grp (priority cep) l) /\
                     grp (priority cep) l <> [])
         (transfer [] l) /\
  StronglySorted Z.lt (map priority (transfer [] l)).
Proof.
  intros Hs. unfold transfer.
  destruct (transfer_fold_inv l [] ([], None)) as (Hb & Hss & _).
  - exact Hs.
  - split; [constructor|]. split; [constructor|]. split; [reflexivity|constructor].
  - now split.
Qed.

(** The records without a target are skipped by the first loop. *)
Lemma transfer_has_target l : forall st,
  fold_left transfer_step l st = fold_left transfer_step (List.filter has_target l) st.
Proof.
  induction l as [|r l IH]; intros st; [reflexivity|].
  cbn [fold_left List.filter]. destruct (has_target r) eqn:Ht.
  - cbn [fold_left]. apply IH.
  - rewrite <- IH. f_equal. unfold transfer_step. now rewrite (has_target_false r Ht).
Qed.

(** *** The arithmetic of one group, free of wrap-around *)

Lemma sumW_bounds rs :
  Forall SRV_ok rs -> 0 <= sumW rs <= 65535 * Z.of_nat (length rs).
Proof.
  induction 1 as [|r rs (_ & _ & Hw) _ IH]; cbn [sumW fold_right length].
  - lia.
  - fold (sumW rs). unfold is_uint16 in Hw. lia.
Qed.

Lemma countZ_bounds rs : 0 <= countZ rs <= Z.of_nat (length rs).
Proof.
  unfold countZ. pose proof (List.filter_length_le (fun r => Weight r =? 0) rs). lia.
Qed.

Lemma fold_add_target rs : forall c,
  Forall SRV_ok rs ->
  0 <= totalWeight c ->
  totalWeight c + 65535000 * Z.of_nat (length rs) <= max_int ->
  fold_left add_target rs c =
  {| priority := priority c;
     totalWeight := totalWeight c + sumW rs * 1000;
     targets := targets c ++ map (final_target 0) rs |}.
Proof.
  induction rs as [|r rs IH]; intros c Hok H0 Hmax; cbn [fold_left sumW fold_right map].
  - rewrite Z.add_0_r, app_nil_r. now destruct c.
  - fold (sumW rs). inversion Hok as [|? ? (Hp & Hq & Hw) Hrs]; subst.
    unfold is_uint16 in Hw. cbn [length] in Hmax.
    assert (Em : int_mul (Weight r) smallChanceMultiplier = Weight r * 1000).
    { unfold int_mul, smallChanceMultiplier. apply int_wrap_id.
      unfold is_int, min_int, max_int. lia. }
    assert (Ea : int_add (totalWeight c) (Weight r * 1000) = totalWeight c + Weight r * 1000).
    { apply int_add_small. int_range. }
    rewrite IH; [| exact Hrs | |].
    + unfold add_target. cbn [priority totalWeight targets weight]. rewrite Em, Ea.
      f_equal; [lia|]. rewrite <- app_assoc. cbn [app]. do 2 f_equal.
      unfold final_target. destruct (Weight r =? 0) eqn:E; [|reflexivity].
      apply Z.eqb_eq in E. now rewrite E.
    + unfold add_target. cbn [totalWeight weight]. rewrite Em, Ea. lia.
    + unfold add_target. cbn [totalWeight weight]. rewrite Em, Ea. lia.
Qed.

Lemma build_spec p rs :
  Forall SRV_ok rs -> Z.of_nat (length rs) <= max_records ->
  build p rs = {| priority := p; totalWeight := sumW rs * 1000;
                  targets := map (final_target 0) rs |}.
Proof.
  intros Hok Hlen. unfold build. rewrite fold_add_target; [reflexivity|exact Hok| |].
  - cbn. lia.
  - cbn [totalWeight]. unfold max_records, max_int in *. lia.
Qed.

Lemma weight_final_target_0 r :
  (weight (final_target 0 r) =? 0) = (Weight r =? 0).
Proof.
  unfold final_target. cbn [weight].
  destruct (Weight r =? 0) eqn:E; [reflexivity|]. apply Z.eqb_neq in E.
  apply Z.eqb_neq. lia.
Qed.

Lemma fold_zero_count rs : forall n,
  0 <= n -> n + Z.of_nat (length rs) <= max_int ->
  fold_left (fun n cet => if weight cet =? 0 then int_add n 1 else n)
    (map (final_target 0) rs) n = n + countZ rs.
Proof.
  unfold countZ.
  induction rs as [|r rs IH]; intros n H0 Hmax; cbn [map fold_left List.filter length].
  - cbn. lia.
  - cbn [length] in Hmax. rewrite weight_final_target_0.
    destruct (Weight r =? 0).
    + rewrite int_add_small by int_range.
      rewrite IH by lia. cbn [length]. lia.
    + rewrite IH by lia. lia.
Qed.

Lemma zeroWeightEntryCount_spec rs :
  Z.of_nat (length rs) <= max_records ->
  zeroWeightEntryCount (map (final_target 0) rs) = countZ rs.
Proof.
  intros H. unfold zeroWeightEntryCount. rewrite fold_zero_count; [lia|lia|].
  unfold max_records, max_int in *. lia.
Qed.

Lemma countZ_cons r rs :
  countZ (r :: rs) = (if Weight r =? 0 then 1 else 0) + countZ rs.
Proof.
  unfold countZ. cbn [List.filter]. destruct (Weight r =? 0); cbn [length]; lia.
Qed.

Lemma assign_verySmall_spec vs rs : forall total,
  0 <= vs -> 0 <= total -> total + vs * countZ rs <= max_int ->
  assign_verySmall vs (map (final_target 0) rs) total =
  (map (final_target vs) rs, total + countZ rs * vs).
Proof.
  induction rs as [|r rs IH]; intros total Hv H0 Hmax; cbn [map assign_verySmall].
  - f_equal. unfold countZ. cbn. lia.
  - rewrite countZ_cons in *. pose proof (countZ_bounds rs) as Hc.
    rewrite weight_final_target_0. destruct (Weight r =? 0) eqn:E.
    + rewrite int_add_small by (unfold is_int, min_int, max_int in *; nia).
      rewrite IH by nia. f_equal.
      * f_equal. unfold final_target. now rewrite E.
      * lia.
    + rewrite IH by nia. f_equal. f_equal. unfold final_target. now rewrite E.
Qed.

Lemma verySmall_of_spec S z :
  0 <= S -> 1 <= z -> S * 1000 + z <= max_int ->
  let c := (S + z - 1) / z in
  verySmall_of (S * 1000) z = Z.max 1 c /\ z * (c - 1) < S <= z * c.
Proof.
  intros HS Hz Hmax c. unfold verySmall_of, smallChanceMultiplier.
  assert (E1 : int_div (S * 1000) 1000 = S).
  { unfold int_div. rewrite Z.quot_mul by lia. apply int_wrap_id.
    unfold is_int, min_int, max_int in *. lia. }
  rewrite E1.
  rewrite (int_add_small S z) by int_range.
  rewrite (int_add_small (S + z) (-1)) by int_range.
  replace (S + z + -1) with (S + z - 1) by lia.
  pose proof (Z.mul_div_le (S + z - 1) z ltac:(lia)) as Hlo.
  pose proof (Z.mul_succ_div_gt (S + z - 1) z ltac:(lia)) as Hhi.
  fold c in Hlo, Hhi.
  assert (Hc0 : 0 <= c) by (apply Z.div_pos; lia).
  assert (E2 : int_div (S + z - 1) z = c).
  { unfold int_div. rewrite Z.quot_div_nonneg by lia. fold c. apply int_wrap_id.
    unfold is_int, min_int, max_int in *. nia. }
  rewrite E2. split; [|nia].
  destruct (c =? 0) eqn:E; [apply Z.eqb_eq in E|apply Z.eqb_neq in E]; lia.
Qed.

Lemma final_target_no_zero a b rs :
  countZ rs = 0 -> map (final_target a) rs = map (final_target b) rs.
Proof.
  induction rs as [|r rs IH]; [reflexivity|]. rewrite countZ_cons.
  pose proof (countZ_bounds rs) as Hb. intros Hz. cbn [map].
  destruct (Weight r =? 0) eqn:E; [lia|].
  rewrite IH by lia. f_equal. unfold final_target. now rewrite E.
Qed.

(** The group population leaves for the records [rs] of priority [p]: the
    records of weight zero get [verySmall], which is the ceiling of the sum
    of the weights over their number, or 1 when that is 0, and the total is
    the sum of the weights times 1000 plus one [verySmall] for each. *)
Lemma group_final p rs :
  Forall SRV_ok rs -> Z.of_nat (length rs) <= max_records ->
  exists verySmall,
    1 <= verySmall /\
    (0 < countZ rs ->
     exists c, countZ rs * (c - 1) < sumW rs <= countZ rs * c /\ verySmall = Z.max 1 c) /\
    fix_zero_weights (build p rs) =
    {| priority := p;
       totalWeight := sumW rs * 1000 + countZ rs * verySmall;
       targets := map (final_target verySmall) rs |}.
Proof.
  intros Hok Hlen. rewrite build_spec by assumption.
  unfold fix_zero_weights. cbn [priority totalWeight targets].
  rewrite zeroWeightEntryCount_spec by assumption.
  pose proof (countZ_bounds rs) as Hc. pose proof (sumW_bounds rs Hok) as Hs.
  destruct (countZ rs =? 0) eqn:E.
  - apply Z.eqb_eq in E. exists 1. split; [lia|]. split; [lia|].
    rewrite E, (final_target_no_zero 0 1 rs E). f_equal. lia.
  - apply Z.eqb_neq in E.
    destruct (verySmall_of_spec (sumW rs) (countZ rs)) as [Ev Hceil].
    { lia. } { lia. } { unfold max_records, max_int in *. lia. }
    set (c := (sumW rs + countZ rs - 1) / countZ rs) in *.
    exists (Z.max 1 c). split; [lia|]. split.
    + intros _. exists c. split; [lia|reflexivity].
    + rewrite Ev.
      rewrite assign_verySmall_spec; [reflexivity|lia|lia|].
      unfold max_records, max_int in *. nia.
Qed.

Lemma priority_fix_zero_weights cep : priority (fix_zero_weights cep) = priority cep.
Proof.
  unfold fix_zero_weights. destruct (zeroWeightEntryCount (targets cep) =? 0); [reflexivity|].
  now destruct (assign_verySmall _ _ _).
Qed.

Lemma populate_priorities sortSlice t srvs :
  priorities (populate sortSlice t srvs) =
  map fix_zero_weights (transfer (priorities t) (sortSlice srvs)).
Proof. reflexivity. Qed.

(** Every group of the view is the group of the records of its priority. *)
Lemma populate_groups sortSlice srvs e cep :
  sorts_by_priority sortSlice -> Forall SRV_ok srvs ->
  Z.of_nat (length srvs) <= max_records ->
  In cep (priorities (populate sortSlice (fresh_view e) srvs)) ->
  let rs := grp (priority cep) (sortSlice srvs) in
  rs <> [] /\ Forall SRV_ok rs /\ Z.of_nat (length rs) <= max_records /\
  cep = fix_zero_weights (build (priority cep) rs).
Proof.
  intros Hsort Hok Hlen Hin rs. destruct (Hsort srvs) as [Hperm Hss].
  rewrite populate_priorities in Hin. cbn [fresh_view priorities] in Hin.
  apply in_map_iff in Hin as (c0 & <- & Hin).
  destruct (transfer_groups _ Hss) as [Hb _]. rewrite List.Forall_forall in Hb.
  destruct (Hb c0 Hin) as [E N]. subst rs. rewrite priority_fix_zero_weights.
  split; [exact N|]. split; [|split; [|now rewrite <- E]].
  - rewrite List.Forall_forall in Hok |- *. intros r Hr.
    apply grp_In in Hr as [Hr _]. apply Hok.
    now apply (Permutation_in r (Permutation_sym Hperm)).
  - pose proof (List.filter_length_le (keeps (priority c0)) (sortSlice srvs)) as Hf.
    pose proof (Permutation_length Hperm) as Hl. unfold grp. lia.
Qed.

(** C3: in the view populate builds from any slice of at most [max_records]
    well-formed records, however [sort.Slice] orders the records of equal
    priority, a group that holds [Z > 0] records of weight zero gives each of
    them the weight [verySmall], the ceiling [c] of the sum [S] of the
    weights of the group over [Z] (that is [Z (c - 1) < S <= Z c]) or 1 when
    the ceiling is 0; the other targets keep their weight times 1000, and the
    total of the group is [S] times 1000 plus [Z] times [verySmall]. *)
Theorem populate_zero_weights (sortSlice : list SRV -> list SRV) (srvs : list SRV)
    (e : Z) (cep : cePriority)
    (Hsort : sorts_by_priority sortSlice)
    (Hok : Forall SRV_ok srvs)
    (Hlen : Z.of_nat (length srvs) <= max_records)
    (Hin : In cep (priorities (populate sortSlice (fresh_view e) srvs)))
    (Hzero : 0 < countZ (grp (priority cep) (sortSlice srvs))) :
  let rs := grp (priority cep) (sortSlice srvs) in
  exists c,
    countZ rs * (c - 1) < sumW rs <= countZ rs * c /\
    targets cep = map (final_target (Z.max 1 c)) rs /\
    totalWeight cep = sumW rs * 1000 + countZ rs * Z.max 1 c.
Proof.
  intros rs.
  destruct (populate_groups sortSlice srvs e cep Hsort Hok Hlen Hin)
    as (_ & Hoks & Hlens & E).
  fold rs in Hoks, Hlens, E, Hzero.
  destruct (group_final (priority cep) rs Hoks Hlens) as (vs & _ & Hc & G).
  destruct (Hc Hzero) as (c & Hceil & ->).
  exists c. split; [exact Hceil|]. rewrite E, G. now split.
Qed.

Lemma sort_by_priority_sorts : sorts_by_priority sort_by_priority.
Proof.
  assert (ins_perm : forall r l, Permutation (r :: l) (insert_by_priority r l)).
  { intros r l. induction l as [|x l IH]; cbn [insert_by_priority]; [reflexivity|].
    destruct (Priority r <? Priority x); [reflexivity|].
    etransitivity; [apply perm_swap|]. now apply perm_skip. }
  assert (ins_sorted : forall r l,
            StronglySorted (fun a b => Priority a <= Priority b) l ->
            StronglySorted (fun a b => Priority a <= Priority b) (insert_by_priority r l)).
  { intros r l H. induction H as [|x l Hl IH Hx]; cbn [insert_by_priority].
    - repeat constructor.
    - destruct (Priority r <? Priority x) eqn:E.
      + apply Z.ltb_lt in E. constructor; [now constructor|].
        constructor; [lia|]. eapply List.Forall_impl; [|exact Hx]. cbn. intros. lia.
      + apply Z.ltb_ge in E. constructor; [exact IH|].
        apply (Permutation_Forall (ins_perm r l)). now constructor. }
  assert (fold : forall srvs acc,
            StronglySorted (fun a b => Priority a <= Priority b) acc ->
            Permutation (acc ++ srvs)
              (fold_left (fun acc srv => insert_by_priority srv acc) srvs acc) /\
            StronglySorted (fun a b => Priority a <= Priority b)
              (fold_left (fun acc srv => insert_by_priority srv acc) srvs acc)).
  { induction srvs as [|r srvs IH]; intros acc Hs; cbn [fold_left].
    - rewrite app_nil_r. now split.
    - destruct (IH (insert_by_priority r acc) (ins_sorted r acc Hs)) as [P S].
      split; [|exact S]. etransitivity; [|exact P].
      etransitivity; [symmetry; apply Permutation_middle|].
      apply (Permutation_app_tail srvs (ins_perm r acc)). }
  intros srvs. destruct (fold srvs [] ltac:(constructor)) as [P S]. now split.
Qed.

Lemma populate_zero_weights_witness :
  exists c,
    countZ (grp 13 (sort_by_priority [mkSRV "u1" 1 13 10; mkSRV "u4" 4 13 0]))
    * (c - 1) < 10 <= 1 * c /\
    targets (mkPriority 13 10010 [mkTarget 10000 1 "u1"; mkTarget 10 4 "u4"]) =
    map (final_target (Z.max 1 c)) [mkSRV "u1" 1 13 10; mkSRV "u4" 4 13 0].
Proof.
  destruct (populate_zero_weights sort_by_priority
              [mkSRV "u1" 1 13 10; mkSRV "u4" 4 13 0] 0
              (mkPriority 13 10010 [mkTarget 10000 1 "u1"; mkTarget 10 4 "u4"]))
    as (c & H1 & H2 & _).
  - exact sort_by_priority_sorts.
  - repeat constructor; discriminate.
  - vm_compute. discriminate.
  - left. vm_compute. reflexivity.
  - vm_compute. reflexivity.
  - exists c. split; [exact H1|exact H2].
Defined.

Lemma sum_weights_final vs rs :
  sum_weights (map (final_target vs) rs) = sumW rs * 1000 + countZ rs * vs.
Proof.
  induction rs as [|r rs IH]; [reflexivity|].
  cbn [map sum_weights fold_right sumW]. fold (sumW rs).
  fold (sum_weights (map (final_target vs) rs)). rewrite IH, countZ_cons.
  unfold final_target at 1. cbn [weight].
  destruct (Weight r =? 0) eqn:E; [apply Z.eqb_eq in E|]; lia.
Qed.

Lemma has_target_name r : has_target r = true -> Target r <> "".
Proof. unfold has_target. intros H E. rewrite E in H. discriminate H. Qed.

(** The views of populate are the views [bestTarget] and [dialIterate] are
    proved on: every group has a positive total weight and every port is a
    [uint16]. *)
Lemma populate_view_ok sortSlice srvs e :
  sorts_by_priority sortSlice -> Forall SRV_ok srvs ->
  Z.of_nat (length srvs) <= max_records ->
  view_ok (populate sortSlice (fresh_view e) srvs).
Proof.
  intros Hsort Hok Hlen. unfold view_ok. apply List.Forall_forall. intros cep Hin.
  destruct (populate_groups sortSlice srvs e cep Hsort Hok Hlen Hin)
    as (Hne & Hoks & Hlens & E).
  set (rs := grp (priority cep) (sortSlice srvs)) in *.
  destruct (group_final (priority cep) rs Hoks Hlens) as (vs & Hvs & _ & G).
  rewrite E, G. unfold priority_ok. cbn [totalWeight targets]. split.
  - pose proof (countZ_bounds rs) as Hc. pose proof (sumW_bounds rs Hoks) as Hs.
    destruct (Z.eq_dec (countZ rs) 0) as [Hz|Hz]; [|nia].
    rewrite Hz. destruct rs as [|r rs']; [now contradiction Hne|].
    rewrite countZ_cons in Hz. pose proof (countZ_bounds rs') as Hc'.
    inversion Hoks as [|? ? (_ & _ & Hw) Hoks']; subst.
    pose proof (sumW_bounds rs' Hoks') as Hs'. unfold is_uint16 in Hw.
    cbn [sumW fold_right]. fold (sumW rs').
    destruct (Weight r =? 0) eqn:Er; [lia|]. apply Z.eqb_neq in Er. lia.
  - apply Forall_map. eapply List.Forall_impl; [|exact Hoks].
    intros r (Hp & _). exact Hp.
Qed.

(** Every group of a populated view holds a target. *)
Lemma populate_targets_nonempty sortSlice srvs e :
  sorts_by_priority sortSlice -> Forall SRV_ok srvs ->
  Z.of_nat (length srvs) <= max_records ->
  Forall (fun cep => targets cep <> [])
         (priorities (populate sortSlice (fresh_view e) srvs)).
Proof.
  intros Hsort Hok Hlen. apply List.Forall_forall. intros cep Hin.
  destruct (populate_groups sortSlice srvs e cep Hsort Hok Hlen Hin)
    as (Hne & Hoks & Hlens & E).
  destruct (group_final (priority cep) _ Hoks Hlens) as (vs & _ & _ & G).
  rewrite E, G. cbn [targets].
  destruct (grp (priority cep) (sortSlice srvs)); [now contradiction Hne|discriminate].
Qed.

(** C5: in the view populate builds from any slice of at most [max_records]
    well-formed records, however [sort.Slice] orders the records of equal
    priority, every stored target has a weight other than zero, the
    priorities of the groups increase strictly along the slice of groups,
    and the records without a target name count for nothing: the view is the
    one built from the sorted slice without them, every stored target stems
    from a record with a name and of the priority of its group, and the total
    weight of a group is the sum of the weights of its targets. *)
Theorem populate_invariants (sortSlice : list SRV -> list SRV) (srvs : list SRV) (e : Z)
    (Hsort : sorts_by_priority sortSlice)
    (Hok : Forall SRV_ok srvs)
    (Hlen : Z.of_nat (length srvs) <= max_records) :
  let cesrv := populate sortSlice (fresh_view e) srvs in
  (forall cep cet, In cep (priorities cesrv) -> In cet (targets cep) -> weight cet <> 0) /\
  StronglySorted Z.lt (map priority (priorities cesrv)) /\
  cesrv = populate_sorted (fresh_view e) (List.filter has_target (sortSlice srvs)) /\
  (forall cep cet, In cep (priorities cesrv) -> In cet (targets cep) ->
     exists r, In r srvs /\ Target r <> "" /\ Priority r = priority cep /\
               target cet = ToLower (Target r) /\ port cet = Port r) /\
  (forall cep, In cep (priorities cesrv) -> totalWeight cep = sum_weights (targets cep)).
Proof.
  intros cesrv. subst cesrv. destruct (Hsort srvs) as [Hperm Hss].
  assert (Hgrp : forall cep, In cep (priorities (populate sortSlice (fresh_view e) srvs)) ->
            exists vs, 1 <= vs /\
              targets cep = map (final_target vs) (grp (priority cep) (sortSlice srvs)) /\
              totalWeight cep = sumW (grp (priority cep) (sortSlice srvs)) * 1000
                                + countZ (grp (priority cep) (sortSlice srvs)) * vs).
  { intros cep Hin.
    destruct (populate_groups sortSlice srvs e cep Hsort Hok Hlen Hin)
      as (_ & Hoks & Hlens & E).
    destruct (group_final (priority cep) _ Hoks Hlens) as (vs & Hvs & _ & G).
    exists vs. split; [exact Hvs|]. rewrite E at 1 3. rewrite G. now split. }
  split; [|split; [|split; [|split]]].
  - intros cep cet Hin Hcet. destruct (Hgrp cep Hin) as (vs & Hvs & Et & _).
    rewrite Et in Hcet. apply in_map_iff in Hcet as (r & <- & Hr).
    apply grp_In in Hr as (Hr & _).
    rewrite List.Forall_forall in Hok. destruct (Hok r) as (_ & _ & Hw).
    { now apply (Permutation_in r (Permutation_sym Hperm)). }
    unfold final_target, is_uint16 in *. cbn [weight].
    destruct (Weight r =? 0) eqn:E; [lia|]. apply Z.eqb_neq in E. lia.
  - rewrite populate_priorities. cbn [fresh_view priorities]. rewrite map_map.
    rewrite (map_ext _ priority priority_fix_zero_weights).
    now destruct (transfer_groups _ Hss).
  - unfold populate, populate_sorted, transfer. f_equal. f_equal. f_equal.
    apply transfer_has_target.
  - intros cep cet Hin Hcet. destruct (Hgrp cep Hin) as (vs & _ & Et & _).
    rewrite Et in Hcet. apply in_map_iff in Hcet as (r & <- & Hr).
    apply grp_In in Hr as (Hr & Ht & Hp). exists r.
    split; [now apply (Permutation_in r (Permutation_sym Hperm))|].
    split; [now apply has_target_name|]. now split.
  - intros cep Hin. destruct (Hgrp cep Hin) as (vs & _ & Et & Ew).
    now rewrite Et, Ew, sum_weights_final.
Qed.

Lemma populate_invariants_witness :
  StronglySorted Z.lt
    (map priority
       (priorities (populate sort_by_priority (fresh_view 0)
                      [mkSRV "u7" 7 14 0; mkSRV "" 9 13 100; mkSRV "u1" 1 13 10]))).
Proof.
  exact (proj1 (proj2
    (populate_invariants sort_by_priority
       [mkSRV "u7" 7 14 0; mkSRV "" 9 13 100; mkSRV "u1" 1 13 10] 0
       sort_by_priority_sorts
       ltac:(repeat constructor; discriminate)
       ltac:(vm_compute; discriminate)))).
Defined.

(** What holds of the first pass of bestTarget whatever the health store:
    the endpoint returned stems from a usable target, or no target of the
    view is usable and the endpoint is the one the least-worst pass leaves. *)
Lemma bestTarget_usable_or_none cache now pk cesrv :
  weights_ok (priorities cesrv) -> priorities cesrv <> [] ->
  exists srv, bestTarget cache now pk cesrv = Ret (Some srv) /\
    ((exists cep, In cep (priorities cesrv) /\ picked cache now cep (targets cep) srv) \/
     (Forall (fun cet => usable cache now cet = false) (allTargets cesrv) /\
      srv = fst (leastWorst cache now (priorities cesrv) (empty_SRV, zeroTime)))).
Proof.
  intros Hw Hne. unfold bestTarget.
  assert ((Z.of_nat (length (priorities cesrv)) =? 0) = false) as ->.
  { apply Z.eqb_neq. destruct (priorities cesrv); [now contradiction Hne|].
    cbn [length]. lia. }
  destruct (scan_priorities_spec cache now pk (priorities cesrv) O empty_SRV Hw)
    as (r & -> & Hr).
  cbn [obind]. destruct r as [found|[srv have]].
  - exists found. split; [reflexivity|now left].
  - destruct Hr as (-> & _ & F). eexists. split; [reflexivity|]. right.
    split; [|reflexivity]. unfold allTargets. clear -F.
    induction F as [|c l Hc Hl IH]; cbn [map concat]; [constructor|].
    apply Forall_app. now split.
Qed.

(** * Further properties of the package *)

(** ** extractHostPort and the route of dialContext *)

Section RouteFacts.

Variable ParseIP : string -> bool.

(** X1. The address [host:port] of a named host gives back the host and the
    port: the host is not empty, does not start with a bracket and is not an
    IP literal, the port is not empty and holds no colon. *)
Theorem extractHostPort_host_port (host port : string) (c : ascii) (rest : string)
    (Hhost : host = String c rest) (Hbracket : c <> "["%char)
    (Hport : port <> "") (Hcolon : no_colon port)
    (Hname : ParseIP host = false) :
  extractHostPort ParseIP (host +:+ ":" +:+ port) = Ret (host, port).
Proof.
  unfold extractHostPort. change (host +:+ ":" +:+ port) with (host +:+ String ":" port).
  assert (Hb : byte_at (host +:+ String ":" port) 0 = Ret c).
  { rewrite Hhost.
    change (String c rest +:+ String ":" port) with (String c (rest +:+ String ":" port)).
    apply byte_at_0. }
  rewrite Hb. cbn [obind]. rewrite (proj2 (Ascii.eqb_neq _ _) Hbracket).
  unfold LastIndex. rewrite (LastIndex_at_split host port 0) by (lia || easy).
  change (0 + len host) with (len host).
  assert (H1 : 1 <= len host).
  { rewrite Hhost, len_String. pose proof (len_nonneg rest). lia. }
  rewrite (proj2 (Z.ltb_ge (len host) 1)) by lia.
  assert (H2 : 1 <= len port).
  { destruct port as [|d p]; [now contradiction Hport|].
    rewrite len_String. pose proof (len_nonneg p). lia. }
  assert (H3 : (len host + 1 =? len (host +:+ String ":" port)) = false).
  { apply Z.eqb_neq. rewrite len_app, len_String. lia. }
  rewrite H3, slice_to_app. cbn [obind].
  replace (host +:+ String ":" port) with ((host +:+ ":") +:+ port)
    by now rewrite append_assoc_str.
  replace (len host + 1) with (len (host +:+ ":")) by (rewrite len_app; reflexivity).
  rewrite slice_from_app. cbn [obind]. now rewrite Hname.
Qed.

(** X2. An intercepted dial: interception is on, the lower-cased address is
    [host:port] with a named host, and the service is the configured name,
    or [http] for port 80, [https] for port 443 and, when numeric services
    are allowed, the port itself. *)
Theorem dialContext_route_intercept (t : config) (address service host : string)
    (Hroute : dialContext_route ParseIP t address = Ret (Intercept service host)) :
  DisableInterception t = false /\ host <> "" /\ service <> "" /\
  exists port,
    ToLower address = host +:+ ":" +:+ port /\ port <> "" /\ no_colon port /\
    ParseIP host = false /\
    ((ServiceName t <> "" /\ service = ServiceName t) \/
     (ServiceName t = "" /\
      ((port = "80" /\ service = "http") \/ (port = "443" /\ service = "https") \/
       (port <> "80" /\ port <> "443" /\ AllowNumericServices t = true /\
        service = port)))).
Proof.
  unfold dialContext_route in Hroute.
  destruct (extractHostPort ParseIP (ToLower address)) as [|[h p]] eqn:E;
    [discriminate Hroute|].
  cbn [obind] in Hroute.
  set (svc := if negb (String.eqb (ServiceName t) "") then ServiceName t
              else if String.eqb p "80" then "http"
              else if String.eqb p "443" then "https"
              else if AllowNumericServices t then p else "") in *.
  destruct (len h =? 0) eqn:Eh; [discriminate Hroute|].
  destruct (len svc =? 0) eqn:Es; [discriminate Hroute|].
  destruct (DisableInterception t) eqn:Ed; [discriminate Hroute|].
  cbn [orb] in Hroute. injection Hroute as <- <-.
  assert (Hh : h <> "") by (intros ->; discriminate Eh).
  assert (Hs : svc <> "") by (intros Hs; rewrite Hs in Es; discriminate Es).
  split; [reflexivity|]. split; [exact Hh|]. split; [exact Hs|].
  destruct (extractHostPort_split ParseIP _ _ _ E) as [[-> _]|(Ea & Hnc & _ & Hp & Hip)];
    [now contradiction Hh|].
  exists p. split; [exact Ea|]. split; [exact Hp|]. split; [exact Hnc|].
  split; [exact Hip|]. subst svc.
  destruct (String.eqb (ServiceName t) "") eqn:En; cbn [negb] in *.
  - right. apply String.eqb_eq in En. split; [exact En|].
    destruct (String.eqb p "80") eqn:E80.
    { left. apply String.eqb_eq in E80. now split. }
    destruct (String.eqb p "443") eqn:E443.
    { right. left. apply String.eqb_eq in E443. now split. }
    right. right. apply String.eqb_neq in E80, E443.
    destruct (AllowNumericServices t); [easy|now contradiction Hs].
  - left. apply String.eqb_neq in En. now split.
Qed.

(** X3. With interception disabled every dial of a non-empty address is passed
    to the system dialer, and so is every dial of an address that starts with
    a bracket or keeps an IP literal before its last colon. *)
Theorem dialContext_route_passthru (t : config) (address : string)
    (Hne : address <> "")
    (Hcase : DisableInterception t = true \/
             (exists rest, ToLower address = String "[" rest) \/
             (exists h p, ToLower address = h +:+ ":" +:+ p /\ no_colon p /\
                          ParseIP h = true)) :
  dialContext_route ParseIP t address = Ret PassThru.
Proof.
  unfold dialContext_route. destruct Hcase as [Hd|Hip].
  - destruct (extractHostPort_returns ParseIP (ToLower address)) as (h & p & ->).
    { now apply ToLower_nonempty. }
    cbn [obind]. rewrite Hd. now rewrite !orb_true_r.
  - rewrite (extractHostPort_empty_pair ParseIP (ToLower address)).
    + reflexivity.
    + destruct Hip as [H|H]; [now left|now right; right; right].
Qed.

End RouteFacts.

Lemma extractHostPort_host_port_witness :
  extractHostPort (fun _ => false) ("example.com" +:+ ":" +:+ "443")
  = Ret ("example.com", "443").
Proof.
  apply (extractHostPort_host_port (fun _ => false) "example.com" "443"
           "e" "xample.com" eq_refl).
  - discriminate.
  - discriminate.
  - repeat split; discriminate.
  - reflexivity.
Defined.

Lemma dialContext_route_intercept_witness :
  DisableInterception default_config = false /\ "example.com" <> "" /\ "https" <> "".
Proof.
  destruct (dialContext_route_intercept (fun _ => false) default_config
              "Example.COM:443" "https" "example.com" eq_refl) as (H1 & H2 & H3 & _).
  now split.
Defined.

Lemma dialContext_route_passthru_witness :
  dialContext_route (fun _ => false) default_config "[::1]:443" = Ret PassThru.
Proof.
  apply dialContext_route_passthru.
  - discriminate.
  - right. left. now exists "::1]:443".
Defined.

(** ** Keys of the health store *)

Lemma IndexByte_at_no_colon s rest : forall i,
  no_colon s -> IndexByte_at i (s +:+ String ":" rest) ":" = i + len s.
Proof.
  induction s as [|c s IH]; intros i H.
  - change ("" +:+ String ":" rest) with (String ":" rest). cbn [IndexByte_at].
    rewrite Ascii.eqb_refl. change (len "") with 0. lia.
  - destruct H as [Hc Hs].
    change (String c s +:+ String ":" rest) with (String c (s +:+ String ":" rest)).
    cbn [IndexByte_at]. rewrite (proj2 (Ascii.eqb_neq _ _) Hc), IH by exact Hs.
    rewrite len_String. lia.
Qed.

(** X4. A key made of a host without a colon and of a port unpacks into the
    host and the decimal port; when the host is empty both parts come back
    empty. *)
Theorem unpackHealthStoreKey_make (host : string) (port : Z)
    (Hcolon : no_colon host) :
  unpackHealthStoreKey (makeHealthStoreKey host port) =
  if len host =? 0 then Ret ("", "") else Ret (host, FormatUint (uint64 port)).
Proof.
  unfold unpackHealthStoreKey, makeHealthStoreKey, IndexByte.
  set (p := FormatUint (uint64 port)).
  change (host +:+ ":" +:+ p) with (host +:+ String ":" p).
  rewrite IndexByte_at_no_colon by exact Hcolon. change (0 + len host) with (len host).
  pose proof (len_nonneg host) as H0.
  destruct (len host =? 0) eqn:E.
  - apply Z.eqb_eq in E. now rewrite E.
  - apply Z.eqb_neq in E. rewrite (proj2 (Z.ltb_lt 0 (len host))) by lia.
    rewrite slice_to_app. cbn [obind].
    replace (host +:+ String ":" p) with ((host +:+ ":") +:+ p)
      by now rewrite append_assoc_str.
    replace (len host + 1) with (len (host +:+ ":")) by (rewrite len_app; reflexivity).
    now rewrite slice_from_app.
Qed.

Lemma unpackHealthStoreKey_make_witness :
  unpackHealthStoreKey (makeHealthStoreKey "example.net" 80) = Ret ("example.net", "80").
Proof.
  exact (unpackHealthStoreKey_make "example.net" 80
           ltac:(repeat split; discriminate)).
Defined.

(** ** trimTo *)

Lemma take_str_length n : forall s,
  (n <= String.length s)%nat -> String.length (take_str n s) = n.
Proof.
  induction n as [|n IH]; intros [|c s] H; cbn in *; try lia.
  rewrite IH; lia.
Qed.

Lemma take_drop_str n : forall s, s = take_str n s +:+ drop_str n s.
Proof.
  induction n as [|n IH]; intros [|c s]; try reflexivity.
  cbn [take_str drop_str].
  change (String c (take_str n s) +:+ drop_str n s)
    with (String c (take_str n s +:+ drop_str n s)).
  now rewrite <- IH.
Qed.

(** X5. [trimTo] never slices out of range; it returns a string no longer than
    [max] unchanged, and cuts a longer one to [max - 3] bytes followed by
    three dots, which makes [max] bytes; when [max] is 3 or less the result
    is the three dots alone, which is longer than [max] when [max < 3]. *)
Theorem trimTo_spec (s : string) (max : Z) :
  exists r, trimTo s max = Ret r /\
    (len s <= max -> r = s) /\
    (max < len s -> max <= 3 -> r = "...") /\
    (max < len s -> 3 < max ->
     len r = max /\ exists head tail, s = head +:+ tail /\ r = head +:+ "...").
Proof.
  unfold trimTo. destruct (max <? len s) eqn:E.
  - apply Z.ltb_lt in E. destruct (max <=? 3) eqn:E3.
    + apply Z.leb_le in E3. exists "...". repeat split; try lia; easy.
    + apply Z.leb_gt in E3. unfold slice_to, slice.
      assert ((0 <=? 0) && (0 <=? max - 3) && (max - 3 <=? len s) = true) as ->.
      { rewrite !andb_true_iff, !Z.leb_le. lia. }
      change (Z.to_nat 0) with O. cbn [obind drop_str]. eexists.
      split; [reflexivity|].
      split; [lia|]. split; [lia|]. intros _ _. split.
      * rewrite len_app. change (len "...") with 3. unfold len.
        rewrite take_str_length; unfold len in *; lia.
      * exists (take_str (Z.to_nat (max - 3 - 0)) s),
               (drop_str (Z.to_nat (max - 3 - 0)) s).
        split; [apply take_drop_str|reflexivity].
  - apply Z.ltb_ge in E. exists s. repeat split; try lia; easy.
Qed.

(** ** getAndParseDuration *)

(** X6. A duration of the configuration stays within one second and one hour
    through [getAndParseDuration], and changes only to a value that the
    variable of the environment holds and that parses within those limits. *)
Theorem getAndParseDuration_limits (Getenv : string -> string)
    (ParseDuration : string -> option Z) (name : string) (currValue : Z)
    (Hcurr : lowerDurationLimit <= currValue <= upperDurationLimit) :
  let d := getAndParseDuration Getenv ParseDuration name currValue in
  lowerDurationLimit <= d <= upperDurationLimit /\
  (d <> currValue -> Getenv name <> "" /\ ParseDuration (Getenv name) = Some d) /\
  (Getenv name = "" \/ ParseDuration (Getenv name) = None \/
   (exists x, ParseDuration (Getenv name) = Some x /\
              (x < lowerDurationLimit \/ upperDurationLimit < x)) -> d = currValue).
Proof.
  cbv zeta. unfold getAndParseDuration.
  destruct (len (Getenv name) =? 0) eqn:El.
  { split; [exact Hcurr|]. split; [intros H; now contradiction H|easy]. }
  assert (Hn : Getenv name <> "") by (intros H; rewrite H in El; discriminate El).
  destruct (ParseDuration (Getenv name)) as [x|]; [|repeat split; easy || lia].
  destruct ((x <? lowerDurationLimit) || (upperDurationLimit <? x)) eqn:Eb.
  - split; [exact Hcurr|]. split; [intros H; now contradiction H|easy].
  - apply orb_false_iff in Eb as [E1 E2]. apply Z.ltb_ge in E1, E2.
    split; [lia|]. split; [easy|].
    intros [H|[H|(y & [= <-] & H)]]; [now contradiction Hn|discriminate H|lia].
Qed.

Lemma getAndParseDuration_limits_witness :
  getAndParseDuration (fun _ => "5m")
    (fun e => if String.eqb e "5m" then Some 300000000000 else None)
    "cslb_dial_veto" 60000000000 <= upperDurationLimit.
Proof.
  exact (proj2 (proj1
    (getAndParseDuration_limits (fun _ => "5m")
       (fun e => if String.eqb e "5m" then Some 300000000000 else None)
       "cslb_dial_veto" 60000000000 ltac:(split; discriminate)))).
Defined.

(** ** The cache cleaners *)

Section Clean.

Context {V : Type} (expiry : V -> Z) (now : Z).

Lemma clean_fold_none (l : list (string * V)) : forall (m : gmap string V) k,
  m !! k = None -> fold_left (clean_step expiry now) l m !! k = None.
Proof.
  induction l as [|[k' v] l IH]; intros m k H; cbn [fold_left]; [exact H|].
  apply IH. unfold clean_step. cbn [fst snd].
  destruct (Before (expiry v) now); [|exact H].
  destruct (decide (k' = k)) as [->|Hne].
  - apply lookup_delete_eq.
  - now rewrite lookup_delete_ne.
Qed.

Lemma clean_fold_kept (l : list (string * V)) : forall (m : gmap string V) k,
  (forall v, In (k, v) l -> Before (expiry v) now = false) ->
  fold_left (clean_step expiry now) l m !! k = m !! k.
Proof.
  induction l as [|[k' v] l IH]; intros m k H; cbn [fold_left]; [reflexivity|].
  rewrite IH by (intros v' Hin; apply H; now right).
  unfold clean_step. cbn [fst snd].
  destruct (Before (expiry v) now) eqn:E; [|reflexivity].
  destruct (decide (k' = k)) as [->|Hne].
  - rewrite (H v) in E by now left. discriminate E.
  - now rewrite lookup_delete_ne.
Qed.

Lemma clean_fold_expired (l : list (string * V)) : forall (m : gmap string V) k v,
  In (k, v) l -> Before (expiry v) now = true ->
  fold_left (clean_step expiry now) l m !! k = None.
Proof.
  induction l as [|[k' v'] l IH]; intros m k v Hin E; cbn [fold_left]; [destruct Hin|].
  destruct Hin as [[= -> ->]|Hin].
  - apply clean_fold_none. unfold clean_step. cbn [fst snd]. rewrite E.
    apply lookup_delete_eq.
  - now apply (IH _ k v).
Qed.

(** What a sweep leaves under a key: the entry that was there when it has
    not expired, and nothing otherwise. *)
Lemma clean_lookup (cache : gmap string V) k :
  fold_left (clean_step expiry now) (map_to_list cache) cache !! k =
  match cache !! k with
  | Some v => if Before (expiry v) now then None else Some v
  | None => None
  end.
Proof.
  destruct (cache !! k) as [v|] eqn:E.
  - destruct (Before (expiry v) now) eqn:Eb.
    + apply (clean_fold_expired _ _ k v); [|exact Eb].
      apply list_elem_of_In, elem_of_map_to_list. exact E.
    + rewrite clean_fold_kept; [exact E|].
      intros v' Hin. apply list_elem_of_In, elem_of_map_to_list in Hin.
      rewrite E in Hin. now injection Hin as <-.
  - now apply clean_fold_none.
Qed.

End Clean.

(** What a sweep leaves under a key, whatever the order in which the loop
    meets the entries of the map. *)
Lemma srvCache_clean_in_lookup (order : list (string * ceSRV)) (now : Z)
    (cache : gmap string ceSRV) (k : string) :
  Permutation order (map_to_list cache) ->
  srvCache_clean_in order now cache !! k =
  match cache !! k with
  | Some v => if Before (expires v) now then None else Some v
  | None => None
  end.
Proof.
  intros Hperm. unfold srvCache_clean_in.
  assert (Hin : forall v, In (k, v) order <-> cache !! k = Some v).
  { intros v. split.
    - intros H. apply elem_of_map_to_list, list_elem_of_In.
      eapply Permutation_in; [exact Hperm|exact H].
    - intros H. apply elem_of_map_to_list, list_elem_of_In in H.
      eapply Permutation_in; [symmetry; exact Hperm|exact H]. }
  destruct (cache !! k) as [v|] eqn:E.
  - destruct (Before (expires v) now) eqn:Eb.
    + apply (clean_fold_expired _ _ _ _ k v); [|exact Eb]. now apply Hin.
    + rewrite clean_fold_kept; [exact E|].
      intros v' Hv. apply Hin in Hv. now injection Hv as <-.
  - now apply clean_fold_none.
Qed.

(** X7. The sweep of the SRV cache deletes exactly the views that expire before
    [now], whatever the order in which the map iteration meets the entries:
    a view left in the cache was there and does not expire before [now], a
    view that does not expire before [now] is left as it was, a view that
    expires before [now] is gone, and every order leaves the same cache. *)
Theorem srvCache_clean_spec (order : list (string * ceSRV)) (now : Z)
    (cache : gmap string ceSRV) (key : string)
    (Horder : Permutation order (map_to_list cache)) :
  let swept := srvCache_clean_in order now cache in
  (forall cesrv, swept !! key = Some cesrv ->
     cache !! key = Some cesrv /\ now <= expires cesrv) /\
  (forall cesrv, cache !! key = Some cesrv -> now <= expires cesrv ->
     swept !! key = Some cesrv) /\
  (forall cesrv, cache !! key = Some cesrv -> expires cesrv < now ->
     swept !! key = None) /\
  swept = srvCache_clean now cache.
Proof.
  cbv zeta. split; [|split; [|split]].
  4:{ apply map_eq. intros k. rewrite srvCache_clean_in_lookup by exact Horder.
      unfold srvCache_clean. now rewrite clean_lookup. }
  all: rewrite srvCache_clean_in_lookup by exact Horder; unfold Before.
  all: destruct (cache !! key) as [v|]; [|intros; discriminate].
  all: destruct (expires v <? now) eqn:E; [apply Z.ltb_lt in E|apply Z.ltb_ge in E].
  - intros; discriminate.
  - intros c [= <-]. now split.
  - intros c [= <-] H. lia.
  - intros c [= <-] H. reflexivity.
  - intros c [= <-] H. reflexivity.
  - intros c [= <-] H. lia.
Qed.

Lemma srvCache_clean_spec_witness :
  srvCache_clean_in (rev (map_to_list two_views)) 1000 two_views !! "_http._tcp.a" = None /\
  srvCache_clean_in (rev (map_to_list two_views)) 1000 two_views !! "_http._tcp.b"
  = Some (fresh_view 2000) /\
  srvCache_clean_in (rev (map_to_list two_views)) 1000 two_views
  = srvCache_clean 1000 two_views.
Proof.
  destruct (srvCache_clean_spec (rev (map_to_list two_views)) 1000 two_views
              "_http._tcp.a" (Permutation_sym (Permutation_rev (map_to_list two_views))))
    as (_ & _ & Ha & Heq).
  destruct (srvCache_clean_spec (rev (map_to_list two_views)) 1000 two_views
              "_http._tcp.b" (Permutation_sym (Permutation_rev (map_to_list two_views))))
    as (_ & Hb & _ & _).
  split; [apply (Ha (fresh_view 500)); [reflexivity|cbn; lia]|].
  split; [apply (Hb (fresh_view 2000)); [reflexivity|cbn; lia]|exact Heq].
Defined.

(** X8. The sweep of the health cache deletes exactly the records that expire
    before [now] and leaves the other records as they were. *)
Theorem healthCache_clean_spec (now : Z) (cache : gmap string ceHealth) (key : string) :
  (forall ceh, healthCache_clean now cache !! key = Some ceh ->
     cache !! key = Some ceh /\ now <= expiresH ceh) /\
  (forall ceh, cache !! key = Some ceh -> now <= expiresH ceh ->
     healthCache_clean now cache !! key = Some ceh) /\
  (forall ceh, cache !! key = Some ceh -> expiresH ceh < now ->
     healthCache_clean now cache !! key = None).
Proof.
  unfold healthCache_clean. rewrite clean_lookup. unfold Before.
  destruct (cache !! key) as [v|]; [|repeat split; intros; discriminate].
  destruct (expiresH v <? now) eqn:E; [apply Z.ltb_lt in E|apply Z.ltb_ge in E].
  - repeat split; try (intros; discriminate).
    intros c [= <-] H. lia.
  - split; [intros c [= <-]; now split|]. split; [easy|].
    intros c [= <-] H. lia.
Qed.

(** ** populateHealthStore and lookupSRV *)

Lemma populateHealthStore_lookup t now keys : forall cache k,
  fst (populateHealthStore t now keys cache) !! k =
  match cache !! k with
  | Some ceh => Some ceh
  | None => if decide (k ∈ keys) then Some (new_ceHealth (Add now (HealthTTL t)))
            else None
  end.
Proof.
  induction keys as [|key keys IH]; intros cache k; cbn [populateHealthStore].
  - cbn [fst]. destruct (cache !! k); [reflexivity|].
    now rewrite decide_False by apply not_elem_of_nil.
  - destruct (cache !! key) as [c|] eqn:Ek.
    + rewrite IH. destruct (cache !! k) as [c'|] eqn:Ec; [reflexivity|].
      destruct (decide (k ∈ keys)) as [Hin|Hnin].
      * now rewrite decide_True by now apply list_elem_of_further.
      * rewrite decide_False; [reflexivity|].
        rewrite elem_of_cons. intros [->|H]; [congruence|now apply Hnin].
    + specialize (IH (<[key := new_ceHealth (Add now (HealthTTL t))]> cache) k).
      destruct (populateHealthStore t now keys _) as [cache' started].
      cbn [fst] in *. rewrite IH. destruct (decide (key = k)) as [->|Hne].
      * rewrite lookup_insert_eq, Ek. now rewrite decide_True by apply list_elem_of_here.
      * rewrite lookup_insert_ne by exact Hne.
        destruct (cache !! k); [reflexivity|].
        destruct (decide (k ∈ keys)) as [Hin|Hnin].
        -- now rewrite decide_True by now apply list_elem_of_further.
        -- rewrite decide_False; [reflexivity|]. rewrite elem_of_cons.
           intros [H|H]; [now apply Hne|now apply Hnin].
Qed.

Lemma populateHealthStore_started t now keys : forall cache,
  NoDup (snd (populateHealthStore t now keys cache)) /\
  forall k, In k (snd (populateHealthStore t now keys cache)) <->
            DisableHealthChecks t = false /\ In k keys /\ cache !! k = None.
Proof.
  induction keys as [|key keys IH]; intros cache; cbn [populateHealthStore].
  - cbn [snd]. split; [constructor|]. intros k. split; [intros []|now intros (_ & [] & _)].
  - destruct (cache !! key) as [c|] eqn:Ek.
    + destruct (IH cache) as [Hnd Hin]. split; [exact Hnd|]. intros k.
      rewrite Hin. split.
      * intros (Hd & Hk & Hn). repeat split; [exact Hd|now right|exact Hn].
      * intros (Hd & [->|Hk] & Hn); [congruence|easy].
    + specialize (IH (<[key := new_ceHealth (Add now (HealthTTL t))]> cache)).
      destruct (populateHealthStore t now keys _) as [cache' started].
      cbn [snd] in *. destruct IH as [Hnd Hin].
      assert (Hkey : ~ In key started).
      { intros H. apply Hin in H as (_ & _ & H). rewrite lookup_insert_eq in H.
        discriminate H. }
      destruct (DisableHealthChecks t) eqn:Ed; cbn [negb].
      * split; [exact Hnd|]. intros k. rewrite Hin. split; [now intros (H & _)|].
        now intros (H & _).
      * split; [apply NoDup_cons; split; [now rewrite list_elem_of_In|exact Hnd]|].
        intros k. cbn [In]. rewrite Hin. split.
        -- intros [<-|(_ & Hk & Hn)].
           ++ repeat split; [now left|exact Ek].
           ++ destruct (decide (key = k)) as [->|Hne].
              ** rewrite lookup_insert_eq in Hn. discriminate Hn.
              ** rewrite lookup_insert_ne in Hn by exact Hne.
                 repeat split; [now right|exact Hn].
        -- intros (_ & [->|Hk] & Hn); [now left|].
           destruct (decide (key = k)) as [->|Hne]; [now left|right].
           repeat split; [exact Hk|now rewrite lookup_insert_ne].
Qed.

(** X9. [populateHealthStore] keeps every record of the store as it is, gives a
    fresh record expiring at [now + HealthTTL] to every key of the slice that
    has none, and adds nothing else; it starts one health check for each such
    key, even when the slice repeats the key, and none when health checks are
    disabled. *)
Theorem populateHealthStore_spec (t : config) (now : Z) (keys : list string)
    (cache : gmap string ceHealth) :
  let r := populateHealthStore t now keys cache in
  (forall k ceh, cache !! k = Some ceh -> fst r !! k = Some ceh) /\
  (forall k, In k keys -> cache !! k = None ->
     fst r !! k = Some (new_ceHealth (now + HealthTTL t))) /\
  (forall k, ~ In k keys -> fst r !! k = cache !! k) /\
  NoDup (snd r) /\
  (forall k, In k (snd r) <->
     DisableHealthChecks t = false /\ In k keys /\ cache !! k = None).
Proof.
  cbv zeta. split; [|split; [|split]].
  - intros k ceh H. now rewrite populateHealthStore_lookup, H.
  - intros k Hin H. rewrite populateHealthStore_lookup, H.
    now rewrite decide_True by now apply list_elem_of_In.
  - intros k Hnin. rewrite populateHealthStore_lookup.
    destruct (cache !! k); [reflexivity|].
    now rewrite decide_False by now rewrite list_elem_of_In.
  - apply populateHealthStore_started.
Qed.

Lemma lookupSRV_hit_eq sortSlice LookupSRV t now service proto domain st cesrv :
  srvStore st !! srvKey service proto domain = Some cesrv ->
  lookupSRV sortSlice LookupSRV t now service proto domain st =
  let found := {| expires := expires cesrv; lookups := int_add (lookups cesrv) 1;
                  priorities := priorities cesrv;
                  uniqueTargetCount := uniqueTargetCount cesrv |} in
  (found,
   mkStores (<[srvKey service proto domain := found]> (srvStore st)) (healthStore st),
   []).
Proof. intros H. unfold lookupSRV. now rewrite H. Qed.

Section LookupFacts.

Variable sortSlice : list SRV -> list SRV.
Variable LookupSRV : string -> list SRV.

Lemma lookupSRV_miss_eq t now service proto domain st :
  srvStore st !! srvKey service proto domain = None ->
  lookupSRV sortSlice LookupSRV t now service proto domain st =
  let key := srvKey service proto domain in
  let cesrv := resolve_view sortSlice LookupSRV t now key in
  let r := populateHealthStore t now (elements (uniqueTargetKeys cesrv)) (healthStore st) in
  (cesrv, mkStores (<[key := cesrv]> (srvStore st)) (fst r), snd r).
Proof.
  intros H. unfold lookupSRV. rewrite H. cbv zeta.
  now destruct (populateHealthStore _ _ _ _).
Qed.

(** X10. After a lookup that misses the cache every endpoint of the view has a
    record in the health store, the records that were there are unchanged,
    the views under the other keys of the SRV cache are unchanged, and the
    count stored on the view is the number of its distinct endpoints. *)
Theorem lookupSRV_miss_stores (t : config) (now : Z) (service proto domain : string)
    (st : stores) (Hmiss : srvStore st !! srvKey service proto domain = None) :
  let r := lookupSRV sortSlice LookupSRV t now service proto domain st in
  let cesrv := fst (fst r) in
  let st' := snd (fst r) in
  (forall cep cet, In cep (priorities cesrv) -> In cet (targets cep) ->
     is_Some (healthStore st' !! healthStoreKey cet)) /\
  (forall k ceh, healthStore st !! k = Some ceh -> healthStore st' !! k = Some ceh) /\
  (forall key, key <> srvKey service proto domain ->
     srvStore st' !! key = srvStore st !! key) /\
  lookups cesrv = 1 /\
  uniqueTargets cesrv = Z.of_nat (size (uniqueTargetKeys cesrv)).
Proof.
  cbv zeta. unfold lookupSRV. rewrite Hmiss.
  set (key := srvKey service proto domain).
  set (cesrv := resolve_view sortSlice LookupSRV t now key).
  pose proof (populateHealthStore_lookup t now (elements (uniqueTargetKeys cesrv))
                (healthStore st)) as Hl.
  destruct (populateHealthStore t now (elements (uniqueTargetKeys cesrv)) (healthStore st))
    as [health started].
  cbn [fst snd srvStore healthStore] in *.
  split; [|split; [|split; [|split]]].
  - intros cep cet Hc Ht. rewrite Hl.
    destruct (healthStore st !! healthStoreKey cet); [eauto|].
    rewrite decide_True; [eauto|].
    apply elem_of_elements, elem_uniqueTargetKeys. now exists cep, cet.
  - intros k ceh H. now rewrite Hl, H.
  - intros key' Hne. now rewrite lookup_insert_ne.
  - subst cesrv. unfold resolve_view.
    now destruct (0 <? Z.of_nat (length (LookupSRV key))).
  - reflexivity.
Qed.

(** X11. Two lookups of the same name in a row: the first misses the cache, the
    second finds the view of the first, whatever the resolver would answer
    by then: same expiry, same groups, same count, two lookups counted; it
    leaves the health store alone and starts no health check. *)
Theorem lookupSRV_twice (LookupSRV' : string -> list SRV) (t : config) (now now' : Z)
    (service proto domain : string) (st : stores)
    (Hmiss : srvStore st !! srvKey service proto domain = None) :
  let r1 := lookupSRV sortSlice LookupSRV t now service proto domain st in
  let r2 := lookupSRV sortSlice LookupSRV' t now' service proto domain (snd (fst r1)) in
  expires (fst (fst r2)) = expires (fst (fst r1)) /\
  priorities (fst (fst r2)) = priorities (fst (fst r1)) /\
  uniqueTargets (fst (fst r2)) = uniqueTargets (fst (fst r1)) /\
  lookups (fst (fst r2)) = 2 /\
  healthStore (snd (fst r2)) = healthStore (snd (fst r1)) /\
  snd r2 = [] /\
  srvStore (snd (fst r2)) !! srvKey service proto domain = Some (fst (fst r2)).
Proof.
  cbv zeta. rewrite (lookupSRV_miss_eq t now service proto domain st Hmiss).
  cbv zeta. cbn [fst snd].
  set (key := srvKey service proto domain).
  set (cesrv := resolve_view sortSlice LookupSRV t now key).
  rewrite (lookupSRV_hit_eq sortSlice LookupSRV' t now' service proto domain _ cesrv)
    by apply lookup_insert_eq.
  cbn [fst snd expires priorities lookups uniqueTargetCount srvStore healthStore
       uniqueTargets].
  repeat split.
  - subst cesrv. unfold resolve_view.
    now destruct (0 <? Z.of_nat (length (LookupSRV key))).
  - apply lookup_insert_eq.
Qed.

End LookupFacts.

Lemma lookupSRV_miss_stores_witness :
  lookups (fst (fst (lookupSRV sort_by_priority
                       (fun _ => [mkSRV "t1.example.net" 1 10 20])
                       default_config 7 "http" "tcp" "example.net"
                       (mkStores ∅ ∅)))) = 1.
Proof.
  destruct (lookupSRV_miss_stores sort_by_priority
              (fun _ => [mkSRV "t1.example.net" 1 10 20])
              default_config 7 "http" "tcp" "example.net" (mkStores ∅ ∅))
    as (_ & _ & _ & H & _).
  - apply lookup_empty.
  - exact H.
Defined.

Lemma lookupSRV_twice_witness :
  lookups (fst (fst
    (lookupSRV sort_by_priority (fun _ => []) default_config 9 "http" "tcp" "example.net"
       (snd (fst (lookupSRV sort_by_priority
                    (fun _ => [mkSRV "t1.example.net" 1 10 20])
                    default_config 7 "http" "tcp" "example.net" (mkStores ∅ ∅))))))) = 2.
Proof.
  destruct (lookupSRV_twice sort_by_priority
              (fun _ => [mkSRV "t1.example.net" 1 10 20]) (fun _ => [])
              default_config 7 9 "http" "tcp" "example.net" (mkStores ∅ ∅))
    as (_ & _ & _ & H & _).
  - apply lookup_empty.
  - exact H.
Defined.

(** ** setDialResult and the selector *)

(** X12. After a dial to an endpoint is recorded, a target with the key of the
    endpoint is usable at [now'] exactly when its record is not marked
    unhealthy and, for a failed dial, the veto has elapsed ([now + dialVeto
    <= now']); for a good dial it is usable from the zero time on. The flag
    is the one of the record as it was, a new record being healthy. *)
Theorem setDialResult_usable (t : config) (now now' : Z) (host : string) (port : Z)
    (err : option string) (cache : gmap string ceHealth) (cet : ceTarget)
    (Hkey : healthStoreKey cet = makeHealthStoreKey host port) :
  let before := default (new_ceHealth (Add now (HealthTTL t)))
                        (cache !! makeHealthStoreKey host port) in
  usable (fst (setDialResult t now host port err cache)) now' cet =
  negb (unHealthy before) &&
  match err with
  | None => 0 <=? now'
  | Some _ => now + DialVetoDuration t <=? now'
  end.
Proof.
  cbv zeta. unfold usable, setDialResult. rewrite Hkey.
  set (key := makeHealthStoreKey host port).
  destruct (cache !! key) as [ceh|]; cbn [default fst];
    rewrite lookup_insert_eq; destruct err as [msg|];
    unfold isGood, After, dial_good, dial_failed, Add, zeroTime;
    cbn [unHealthy nextDialAttempt new_ceHealth]; f_equal;
    rewrite Z.leb_antisym; reflexivity.
Qed.

Lemma setDialResult_usable_witness :
  usable (fst (setDialResult default_config 1000 "s1" 4000 (Some "refused") ∅))
    2000 (mkTarget 1000 4000 "s1") = false.
Proof.
  exact (setDialResult_usable default_config 1000 2000 "s1" 4000 (Some "refused") ∅
           (mkTarget 1000 4000 "s1") eq_refl).
Defined.

(** X13. A good dial and then a failed dial recorded for the same endpoint: the
    second call starts no health check; the record counts one more good and
    one more failed dial, is vetoed until [now2 + dialVeto], carries the
    error of the second dial and its time, and keeps the expiry, the health
    flag and the probe fields it had: recording a dial never extends the life
    of a record. *)
Theorem setDialResult_good_then_failed (t : config) (now1 now2 : Z) (host : string)
    (port : Z) (msg : string) (cache : gmap string ceHealth) :
  let key := makeHealthStoreKey host port in
  let before := default (new_ceHealth (Add now1 (HealthTTL t))) (cache !! key) in
  let r1 := setDialResult t now1 host port None cache in
  let r2 := setDialResult t now2 host port (Some msg) (fst r1) in
  snd r2 = [] /\
  (forall k, k <> key -> fst r2 !! k = cache !! k) /\
  exists ceh, fst r2 !! key = Some ceh /\
    goodDials ceh = int_add (goodDials before) 1 /\
    failedDials ceh = int_add (failedDials before) 1 /\
    nextDialAttempt ceh = now2 + DialVetoDuration t /\
    lastDialAttempt ceh = now2 /\ lastDialStatus ceh = msg /\
    expiresH ceh = expiresH before /\ unHealthy ceh = unHealthy before /\
    url ceh = url before /\ lastHealthCheck ceh = lastHealthCheck before /\
    lastHealthCheckStatus ceh = lastHealthCheckStatus before.
Proof.
  cbv zeta. set (key := makeHealthStoreKey host port).
  unfold setDialResult. fold key.
  destruct (cache !! key) as [ceh0|]; cbn [fst snd default];
    rewrite lookup_insert_eq; cbn [fst snd];
    (split; [reflexivity|]);
    (split; [intros k Hk; now rewrite !lookup_insert_ne by congruence|]);
    (eexists; split; [apply lookup_insert_eq|]); cbn; repeat split.
Qed.

(** ** The health check worker *)

Lemma IndexByte_at_bounds s c : forall i,
  IndexByte_at i s c = -1 \/ i <= IndexByte_at i s c < i + len s.
Proof.
  induction s as [|d s IH]; intros i; cbn [IndexByte_at]; [now left|].
  rewrite len_String. pose proof (len_nonneg s).
  destruct (Ascii.eqb d c); [right; lia|].
  destruct (IH (i + 1)) as [E|B]; [now left|right; lia].
Qed.

Lemma unpackHealthStoreKey_returns key :
  exists host port, unpackHealthStoreKey key = Ret (host, port).
Proof.
  unfold unpackHealthStoreKey, IndexByte.
  destruct (0 <? IndexByte_at 0 key ":") eqn:E; [|eauto].
  apply Z.ltb_lt in E. destruct (IndexByte_at_bounds key ":" 0) as [B|B]; [lia|].
  destruct (slice_defined key 0 (IndexByte_at 0 key ":")) as [h Hh]; [lia..|].
  destruct (slice_defined key (IndexByte_at 0 key ":" + 1) (len key)) as [p Hp]; [lia..|].
  unfold slice_to, slice_from. rewrite Hh, Hp. eauto.
Qed.

Lemma healthCheckIteration_fields t e now get ceh :
  same_dial_fields (fst (healthCheckIteration t e now get ceh)) ceh /\
  url (fst (healthCheckIteration t e now get ceh)) = url ceh.
Proof.
  unfold healthCheckIteration, same_dial_fields.
  destruct (Before e now); [easy|].
  destruct get as [msg|code status body [|]]; easy.
Qed.

Lemma healthCheckLoop_fields t e turns : forall ceh,
  same_dial_fields (fst (healthCheckLoop t e turns ceh)) ceh /\
  url (fst (healthCheckLoop t e turns ceh)) = url ceh.
Proof.
  induction turns as [|[now get] turns IH]; intros ceh; cbn [healthCheckLoop].
  - unfold same_dial_fields. easy.
  - pose proof (healthCheckIteration_fields t e now get ceh) as [F U].
    destruct (healthCheckIteration t e now get ceh) as [c [|]]; cbn [fst] in *.
    + now split.
    + destruct (IH c) as [F' U']. unfold same_dial_fields in *. split; [|congruence].
      intuition congruence.
Qed.

(** X14. The worker of a health check never panics on its key and never touches
    the expiry nor what the dials recorded; without a TXT record, or with an
    empty one, it leaves the whole record as it was; otherwise it stores the
    URL, also when the URL does not parse, in which case nothing else
    changes. *)
Theorem fetchAndRunHealthCheck_spec (t : config) (prefix : string)
    (LookupTXT : string -> option (list string)) (urlParses : string -> bool)
    (healthStoreKey : string) (turns : list (Z * httpGet)) (ceh : ceHealth) :
  exists host port ceh',
    unpackHealthStoreKey healthStoreKey = Ret (host, port) /\
    fetchAndRunHealthCheck t prefix LookupTXT urlParses healthStoreKey turns ceh
    = Ret ceh' /\
    same_dial_fields ceh' ceh /\
    match LookupTXT ("_" +:+ port +:+ prefix +:+ host) with
    | None => ceh' = ceh
    | Some txts =>
        let hcURL := fold_right String.append "" txts in
        if len hcURL =? 0 then ceh' = ceh
        else url ceh' = hcURL /\ (urlParses hcURL = false -> ceh' = set_url hcURL ceh)
    end.
Proof.
  destruct (unpackHealthStoreKey_returns healthStoreKey) as (host & port & E).
  exists host, port. unfold fetchAndRunHealthCheck. rewrite E. cbn [obind].
  unfold healthCheckQName.
  destruct (LookupTXT ("_" +:+ port +:+ prefix +:+ host)) as [txts|].
  2:{ exists ceh. unfold same_dial_fields. repeat split. }
  cbv zeta. destruct (len (fold_right String.append "" txts) =? 0).
  { exists ceh. unfold same_dial_fields. repeat split. }
  set (hcURL := fold_right String.append "" txts).
  destruct (urlParses hcURL) eqn:Eu; cbn [negb].
  - pose proof (healthCheckLoop_fields t (expiresH (set_url hcURL ceh)) turns
                  (set_url hcURL ceh)) as [F U].
    eexists. split; [reflexivity|]. split; [reflexivity|].
    split; [exact F|]. split; [exact U|discriminate].
  - exists (set_url hcURL ceh). unfold same_dial_fields. repeat split.
Qed.

(** X15. The loop of the health check ends at the first turn that finds the
    record expired or meets an error of the transport, and the turns after
    it change nothing; an error of the transport leaves the record marked
    unhealthy for good. *)
Theorem healthCheckLoop_stops (t : config) (expires : Z)
    (before after : list (Z * httpGet)) (now : Z) (get : httpGet)
    (ceh mid : ceHealth)
    (Hlive : healthCheckLoop t expires before ceh = (mid, Continue)) :
  (expires < now ->
   healthCheckLoop t expires (before ++ (now, get) :: after) ceh = (mid, Return)) /\
  (forall msg, now <= expires -> get = GetError msg ->
   exists last,
     healthCheckLoop t expires (before ++ (now, get) :: after) ceh = (last, Return) /\
     unHealthy last = true /\ lastHealthCheckStatus last = msg /\
     lastHealthCheck last = now).
Proof.
  revert ceh Hlive. induction before as [|[n g] before IH]; intros ceh Hlive.
  - cbn [healthCheckLoop] in Hlive. injection Hlive as ->.
    cbn [app healthCheckLoop]. unfold healthCheckIteration, Before. split.
    + intros H. now rewrite (proj2 (Z.ltb_lt _ _) H).
    + intros msg H ->. rewrite (proj2 (Z.ltb_ge _ _) H). eexists. split; [reflexivity|].
      easy.
  - cbn [app healthCheckLoop] in *.
    destruct (healthCheckIteration t expires n g ceh) as [c [|]]; [discriminate Hlive|].
    now apply IH.
Qed.

Lemma healthCheckLoop_stops_witness :
  healthCheckLoop default_config 100
    ([(5, GetResponse 200 "200 OK" "OK" false)] ++
     (101, GetResponse 200 "200 OK" "OK" false) :: [(102, GetError "timeout")])
    (new_ceHealth 100)
  = (mkHealth 100 0 0 0 0 "" 5 "200 OK" "" false, Return).
Proof.
  apply (healthCheckLoop_stops default_config 100
           [(5, GetResponse 200 "200 OK" "OK" false)] [(102, GetError "timeout")]
           101 (GetResponse 200 "200 OK" "OK" false) (new_ceHealth 100)
           (mkHealth 100 0 0 0 0 "" 5 "200 OK" "" false) eq_refl).
  reflexivity.
Defined.

(** ** bestTarget: priorities, weights and the least-worst pass *)

Lemma scan_priorities_skip cache now pk ps1 : forall i srv ps2,
  weights_ok ps1 ->
  Forall (fun cep => Forall (fun cet => usable cache now cet = false) (targets cep)) ps1 ->
  scan_priorities cache now pk i (ps1 ++ ps2) srv false =
  scan_priorities cache now pk (i + length ps1)%nat ps2 srv false.
Proof.
  induction ps1 as [|cep ps1 IH]; intros i srv ps2 Hw Hu; cbn [app length].
  - now rewrite Nat.add_0_r.
  - inversion Hw as [|? ? Hc Hw']; subst. inversion Hu as [|? ? Hcu Hu']; subst.
    cbn [scan_priorities]. unfold randIntn.
    rewrite (proj2 (Z.leb_gt (totalWeight cep) 0)) by lia. cbn [obind].
    pose proof (scan_targets_spec cache now (pk i mod totalWeight cep) cep
                  (targets cep) 0 0 srv false) as S.
    destruct (scan_targets _ _ _ cep (targets cep) 0 0 srv false) as [found|[srv' have']].
    + destruct S as (cet & Hin & _ & U). rewrite List.Forall_forall in Hcu.
      rewrite (Hcu cet Hin) in U. discriminate U.
    + destruct S as [(-> & -> & _)|(_ & _ & (cet & Hin & _ & U))].
      * rewrite IH by assumption. f_equal. lia.
      * rewrite List.Forall_forall in Hcu. rewrite (Hcu cet Hin) in U. discriminate U.
Qed.

(** X16. The selector prefers priority to everything else: when the groups before
    a group hold no usable target and the group holds one, the endpoint
    returned stems from a usable target of that group, whatever the draws
    and whatever the groups after it hold. *)
Theorem bestTarget_first_usable_group (cache : gmap string ceHealth) (now : Z)
    (pk : nat -> Z) (cesrv : ceSRV) (ps1 ps2 : list cePriority) (cep : cePriority)
    (cet : ceTarget)
    (Hps : priorities cesrv = ps1 ++ cep :: ps2)
    (Hw : weights_ok (priorities cesrv))
    (Hbad : Forall (fun c => Forall (fun x => usable cache now x = false) (targets c)) ps1)
    (Hin : In cet (targets cep))
    (Hgood : usable cache now cet = true) :
  exists srv, bestTarget cache now pk cesrv = Ret (Some srv) /\
              picked cache now cep (targets cep) srv.
Proof.
  unfold bestTarget. rewrite Hps in *.
  assert ((Z.of_nat (length (ps1 ++ cep :: ps2)) =? 0) = false) as ->.
  { apply Z.eqb_neq. rewrite length_app. cbn [length]. lia. }
  unfold weights_ok in Hw. apply Forall_app in Hw as [Hw1 Hw2].
  inversion Hw2 as [|? ? Hc _]; subst.
  rewrite scan_priorities_skip by assumption. cbn [scan_priorities]. unfold randIntn.
  rewrite (proj2 (Z.leb_gt (totalWeight cep) 0)) by lia. cbn [obind].
  set (wix := pk (0 + length ps1)%nat mod totalWeight cep).
  pose proof (scan_targets_spec cache now wix cep (targets cep) 0 0 empty_SRV false) as S.
  destruct (scan_targets _ _ _ cep (targets cep) 0 0 empty_SRV false) as [found|[srv' have']].
  - exists found. now split.
  - destruct S as [(-> & -> & F)|(_ & -> & P)].
    + specialize (F eq_refl). rewrite List.Forall_forall in F.
      rewrite (F cet Hin) in Hgood. discriminate Hgood.
    + exists srv'. now split.
Qed.

Lemma bestTarget_first_usable_group_witness :
  exists srv,
    bestTarget first_group_down 1000 (fun _ => 0) three_groups = Ret (Some srv) /\
    picked first_group_down 1000
      (mkPriority 1 2000 [mkTarget 1000 2 "b"; mkTarget 1000 2 "b2"])
      [mkTarget 1000 2 "b"; mkTarget 1000 2 "b2"] srv.
Proof.
  apply (bestTarget_first_usable_group first_group_down 1000 (fun _ => 0) three_groups
           [mkPriority 0 2000 [mkTarget 1000 1 "a"; mkTarget 1000 1 "a2"]]
           [mkPriority 2 1000 [mkTarget 1000 3 "c"]]
           (mkPriority 1 2000 [mkTarget 1000 2 "b"; mkTarget 1000 2 "b2"])
           (mkTarget 1000 2 "b2")).
  - reflexivity.
  - repeat constructor.
  - repeat constructor.
  - right. now left.
  - reflexivity.
Defined.

Lemma scan_targets_in_range cache now wix cep cet ts2 ts1 : forall u srv have,
  Forall (fun x => 0 <= weight x) ts1 ->
  0 <= u -> u + sum_weights ts1 + weight cet <= max_int -> 0 <= weight cet ->
  u + sum_weights ts1 <= wix < u + sum_weights ts1 + weight cet ->
  usable cache now cet = true ->
  scan_targets cache now wix cep (ts1 ++ cet :: ts2) u u srv have = inl (synth cep cet).
Proof.
  induction ts1 as [|x ts1 IH]; intros u srv have Hpos Hu Hmax Hc Hwix Hgood;
    cbn [app scan_targets sum_weights fold_right] in *.
  - rewrite Hgood, int_add_small by int_range.
    now rewrite (proj2 (Z.leb_le u wix)), (proj2 (Z.ltb_lt wix (u + weight cet))) by lia.
  - fold (sum_weights ts1) in *. inversion Hpos as [|? ? Hx Hpos']; subst.
    assert (Hs : 0 <= sum_weights ts1).
    { clear -Hpos'. induction Hpos' as [|y l Hy _ IH']; cbn; [lia|].
      fold (sum_weights l). lia. }
    rewrite int_add_small by int_range.
    assert (Hout : ((u <=? wix) && (wix <? u + weight x)) = false).
    { apply andb_false_iff. right. apply Z.ltb_ge. lia. }
    rewrite Hout.
    destruct (usable cache now x); [destruct (negb have)|];
      apply IH; try assumption; lia.
Qed.

(** X17. The preferred path of the selector: in the first group, when the draw
    falls in the interval of weights of a usable target, that target is the
    endpoint returned, whatever the health of the other targets. The weights
    before it are not negative and the sums stay within [int]. *)
Theorem bestTarget_weighted_pick (cache : gmap string ceHealth) (now : Z)
    (pk : nat -> Z) (cesrv : ceSRV) (cep : cePriority) (ps : list cePriority)
    (ts1 ts2 : list ceTarget) (cet : ceTarget)
    (Hps : priorities cesrv = cep :: ps)
    (Hts : targets cep = ts1 ++ cet :: ts2)
    (Htotal : 0 < totalWeight cep)
    (Hpos : Forall (fun x => 0 <= weight x) ts1)
    (Hmax : sum_weights ts1 + weight cet <= max_int)
    (Hwix : sum_weights ts1 <= pk O mod totalWeight cep < sum_weights ts1 + weight cet)
    (Hgood : usable cache now cet = true) :
  bestTarget cache now pk cesrv = Ret (Some (synth cep cet)).
Proof.
  unfold bestTarget. rewrite Hps. cbn [length scan_priorities].
  assert ((Z.of_nat (S (length ps)) =? 0) = false) as -> by (apply Z.eqb_neq; lia).
  unfold randIntn. rewrite (proj2 (Z.leb_gt (totalWeight cep) 0)) by lia.
  cbn [obind]. rewrite Hts.
  assert (Hs : 0 <= sum_weights ts1).
  { clear -Hpos. induction Hpos as [|y l Hy _ IH']; cbn; [lia|].
    fold (sum_weights l). lia. }
  rewrite scan_targets_in_range; [reflexivity|assumption|lia|lia|lia|lia|assumption].
Qed.

Lemma bestTarget_weighted_pick_witness :
  bestTarget ∅ 1000 (fun _ => 1500) two_targets
  = Ret (Some (synth (mkPriority 0 2000 [mkTarget 1000 1 "a"; mkTarget 1000 2 "b"])
                 (mkTarget 1000 2 "b"))).
Proof.
  apply (bestTarget_weighted_pick ∅ 1000 (fun _ => 1500) two_targets
           (mkPriority 0 2000 [mkTarget 1000 1 "a"; mkTarget 1000 2 "b"]) []
           [mkTarget 1000 1 "a"] [] (mkTarget 1000 2 "b")).
  - reflexivity.
  - reflexivity.
  - reflexivity.
  - repeat constructor. discriminate.
  - discriminate.
  - split; [discriminate|reflexivity].
  - reflexivity.
Defined.

Lemma leastWorst_targets_inv cache now ps cep ts : forall seen st,
  In cep ps -> (forall x, In x ts -> In x (targets cep)) ->
  Forall (fun x => nextAttempt_of cache now x <> zeroTime) ts ->
  leastWorst_inv cache now ps seen st ->
  leastWorst_inv cache now ps (seen ++ ts) (leastWorst_targets cache now cep ts st).
Proof.
  induction ts as [|cet ts IH]; intros seen st Hcep Hsub Hnz Hinv;
    cbn [leastWorst_targets].
  - now rewrite app_nil_r.
  - inversion Hnz as [|? ? Hc Hnz']; subst.
    replace (seen ++ cet :: ts) with ((seen ++ [cet]) ++ ts) by now rewrite <- app_assoc.
    cbv zeta.
    assert (Hnext : leastWorst_inv cache now ps (seen ++ [cet])
              (if IsZero (snd st) || Before (nextAttempt_of cache now cet) (snd st)
               then (synth cep cet, nextAttempt_of cache now cet) else st)).
    { destruct Hinv as [H0 H1]. unfold leastWorst_inv.
      split; [intros H; now destruct seen|]. intros _.
      destruct seen as [|s0 seen].
      - rewrite (H0 eq_refl). change (IsZero zeroTime) with true.
        cbn [orb fst snd app]. split; [exact Hc|].
        split; [|repeat constructor; lia].
        exists cep, cet. split; [exact Hcep|]. split; [apply Hsub; now left|easy].
      - destruct (H1 ltac:(discriminate)) as (Hz & Hch & Hall).
        assert (Hz0 : IsZero (snd st) = false) by (apply Z.eqb_neq; exact Hz).
        rewrite Hz0. cbn [orb]. unfold Before.
        destruct (nextAttempt_of cache now cet <? snd st) eqn:E; cbn [fst snd].
        + apply Z.ltb_lt in E. split; [exact Hc|]. split.
          * exists cep, cet. split; [exact Hcep|]. split; [apply Hsub; now left|easy].
          * apply Forall_app. split; [|repeat constructor; lia].
            eapply List.Forall_impl; [|exact Hall]. cbn. intros. lia.
        + apply Z.ltb_ge in E. split; [exact Hz|]. split; [exact Hch|].
          apply Forall_app. split; [exact Hall|]. repeat constructor. lia. }
    destruct (IsZero (snd st) || Before (nextAttempt_of cache now cet) (snd st));
      (apply IH; [exact Hcep|intros x Hx; apply Hsub; now right|exact Hnz'|exact Hnext]).
Qed.

Lemma leastWorst_inv_fold cache now ps : forall qs seen st,
  (forall c, In c qs -> In c ps) ->
  Forall (fun c => Forall (fun x => nextAttempt_of cache now x <> zeroTime) (targets c)) qs ->
  leastWorst_inv cache now ps seen st ->
  leastWorst_inv cache now ps (seen ++ concat (map targets qs))
    (leastWorst cache now qs st).
Proof.
  unfold leastWorst.
  induction qs as [|c qs IH]; intros seen st Hsub Hnz Hinv; cbn [map concat fold_left].
  - now rewrite app_nil_r.
  - inversion Hnz as [|? ? Hc Hnz']; subst. rewrite app_assoc.
    apply IH; [intros c' H; apply Hsub; now right|exact Hnz'|].
    apply leastWorst_targets_inv; [apply Hsub; now left|easy|exact Hc|exact Hinv].
Qed.

(** X18. The least-worst pass, when it works: if no target of the view is usable
    and no target has the zero time as next attempt (a missing record counts
    for [now]), the endpoint returned stems from a target whose next attempt
    is the earliest of the view. *)
Theorem bestTarget_least_worst (cache : gmap string ceHealth) (now : Z) (pk : nat -> Z)
    (cesrv : ceSRV)
    (Hw : weights_ok (priorities cesrv))
    (Hne : allTargets cesrv <> [])
    (Hbad : Forall (fun x => usable cache now x = false) (allTargets cesrv))
    (Hnz : Forall (fun x => nextAttempt_of cache now x <> zeroTime) (allTargets cesrv)) :
  exists cep cet,
    In cep (priorities cesrv) /\ In cet (targets cep) /\
    bestTarget cache now pk cesrv = Ret (Some (synth cep cet)) /\
    Forall (fun x => nextAttempt_of cache now cet <= nextAttempt_of cache now x)
           (allTargets cesrv).
Proof.
  assert (Hps : priorities cesrv <> []).
  { intros H. apply Hne. unfold allTargets. now rewrite H. }
  destruct (bestTarget_usable_or_none cache now pk cesrv Hw Hps) as (srv & E & [P|[_ ->]]).
  - destruct P as (cep & Hc & (cet & Ht & _ & U)). exfalso.
    rewrite List.Forall_forall in Hbad. rewrite Hbad in U; [discriminate U|].
    unfold allTargets. apply in_concat. exists (targets cep). split; [now apply in_map|easy].
  - assert (Hnz' : Forall (fun c => Forall (fun x => nextAttempt_of cache now x <> zeroTime)
                                      (targets c)) (priorities cesrv)).
    { apply List.Forall_forall. intros c Hc. apply List.Forall_forall. intros x Hx.
      rewrite List.Forall_forall in Hnz. apply Hnz. unfold allTargets.
      apply in_concat. exists (targets c). split; [now apply in_map|easy]. }
    pose proof (leastWorst_inv_fold cache now (priorities cesrv) (priorities cesrv) []
                  (empty_SRV, zeroTime) ltac:(easy) Hnz'
                  ltac:(split; [reflexivity|intros H; now contradiction H])) as [_ H].
    cbn [app] in H. fold (allTargets cesrv) in H.
    destruct (H Hne) as (_ & (cep & cet & Hc & Ht & Es & En) & Hall).
    exists cep, cet. split; [exact Hc|]. split; [exact Ht|]. rewrite <- Es.
    split; [exact E|]. now rewrite En.
Qed.

Lemma bestTarget_least_worst_witness :
  exists cep cet,
    In cep (priorities two_targets) /\ In cet (targets cep) /\
    bestTarget (<["a:1" := mkHealth 9000 0 1 5000 1000 "refused" 0 "" "" false]>
                  (<["b:2" := mkHealth 9000 0 1 4000 1000 "refused" 0 "" "" false]> ∅))
      1000 (fun _ => 0) two_targets = Ret (Some (synth cep cet)).
Proof.
  destruct (bestTarget_least_worst
              (<["a:1" := mkHealth 9000 0 1 5000 1000 "refused" 0 "" "" false]>
                 (<["b:2" := mkHealth 9000 0 1 4000 1000 "refused" 0 "" "" false]> ∅))
              1000 (fun _ => 0) two_targets)
    as (cep & cet & H1 & H2 & H3 & _).
  - repeat constructor.
  - discriminate.
  - repeat constructor.
  - repeat constructor; discriminate.
  - exists cep, cet. now split.
Defined.

(** ** dialIterate: what it reports *)

Lemma dial_inv_step keys st a e l c s :
  dial_inv keys st -> a ∈ keys -> a ∉ dupes st ->
  dial_inv keys (mkDialState ({[a]} ∪ dupes st) e l c (dialled st ++ [a]) s).
Proof.
  intros (Hd & Hnd & Hsub) Hk Hnin. unfold dial_inv. cbn [dupes dialled].
  split; [|split].
  - rewrite list_to_set_app_L, Hd. cbn [list_to_set].
    now rewrite (right_id_L ∅ (∪)), (comm_L (∪)).
  - apply NoDup_app. split; [exact Hnd|]. split.
    + intros x Hx Hx'. apply list_elem_of_singleton in Hx'. subst x.
      apply Hnin. now rewrite Hd, elem_of_list_to_set.
    + apply NoDup_singleton.
  - apply union_subseteq. split; [now apply singleton_subseteq_l|exact Hsub].
Qed.

Lemma dialIterate_from_post t w cesrv address (Hok : view_ok cesrv)
    (Hs : (0 < size (uniqueTargetKeys cesrv))%nat) : forall fuel i st res st',
  dial_inv (uniqueTargetKeys cesrv) st ->
  turn_inv w (uniqueTargetKeys cesrv) i st ->
  dialIterate_from fuel i t w cesrv address st = Some (Ret (res, st')) ->
  turn_post w (uniqueTargetKeys cesrv) address res st'.
Proof.
  set (keys := uniqueTargetKeys cesrv) in *.
  induction fuel as [|fuel IH]; intros i st res st' Hinv Hturn E; [discriminate E|].
  cbn [dialIterate_from] in E.
  destruct (bestTarget_from_view (concurrent w i (cache st)) (clock_best w i) (picks w i)
              cesrv (view_ok_weights _ Hok) (uniqueTargetKeys_nonempty _ Hs))
    as (srv & Eb & cep & cet & Hc & Ht & Esrv).
  rewrite Eb in E.
  assert (Hport : is_uint16 (port cet)).
  { unfold view_ok in Hok. rewrite List.Forall_forall in Hok.
    destruct (Hok cep Hc) as [_ Hp]. rewrite List.Forall_forall in Hp. now apply Hp. }
  assert (Ea : Target srv +:+ ":" +:+ fmt_d (Port srv) = healthStoreKey cet).
  { rewrite Esrv. now apply synth_address. }
  assert (Ek : makeHealthStoreKey (Target srv) (Port srv) = healthStoreKey cet).
  { rewrite Esrv. unfold healthStoreKey, synth. cbn [Target Port]. unfold uint16.
    destruct Hport. now rewrite Z.mod_small by lia. }
  rewrite Ea in E. set (a := healthStoreKey cet) in *.
  assert (Hk : a ∈ keys) by (apply elem_uniqueTargetKeys; now exists cep, cet).
  pose proof (dial_inv_size _ _ Hinv) as Hsz.
  destruct Hturn as (Hi & Hls & Herr).
  assert (Hle : (length (dialled st) <= size keys)%nat).
  { rewrite <- Hsz. apply subseteq_size. now destruct Hinv as (_ & _ & Hsub). }
  destruct (decide (a ∈ dupes st)) as [Hin|Hnin].
  - injection E as <- <-. unfold turn_post. cbn [dialled ls].
    assert (Hne : dialled st <> []).
    { intros Hnil. destruct Hinv as (Hd & _). rewrite Hd, Hnil in Hin.
      now apply not_elem_of_empty in Hin. }
    split; [|split; [reflexivity|split]].
    + intros Hb. rewrite (Hls Hb). cbn [BestTarget DupesStopped GoodDials FailedDials].
      rewrite Hi. rewrite !int_add_small by int_range. reflexivity.
    + rewrite Hsz. destruct (dialled st); [contradiction|cbn [length]; lia].
    + rewrite <- Hi. now apply Herr.
  - unfold setDialResult in E. rewrite Ek in E. fold a in E.
    destruct (systemDialContext w i a) as [msg|] eqn:Ed.
    + destruct (concurrent w i (cache st) !! a) as [ceh|]; cbv zeta in E.
      all: eapply IH in E; [exact E|now apply dial_inv_step|].
      all: unfold turn_inv; cbn [dialled ls lastError];
        (split; [rewrite length_app; cbn [length]; lia|split]).
      all: try (intros Hb; rewrite (Hls Hb);
                cbn [BestTarget DupesStopped GoodDials FailedDials];
                rewrite !int_add_small by int_range; f_equal; lia).
      all: intros _; exists msg; split; [reflexivity|];
        rewrite List.last_last; cbn [pred]; exact Ed.
    + assert (Hpred : pred (length (dialled st ++ [a])) = i).
      { rewrite length_app. cbn [length]. lia. }
      destruct (concurrent w i (cache st) !! a) as [ceh|]; cbv zeta in E.
      all: injection E as <- <-; unfold turn_post; cbn [dialled ls lastError cache].
      all: rewrite Hpred.
      all: split; [intros Hb; rewrite (Hls Hb);
                   cbn [BestTarget DupesStopped GoodDials FailedDials];
                   rewrite length_app; cbn [length];
                   rewrite !int_add_small by int_range; f_equal; lia|].
      all: split; [exact Ed|]; split; [reflexivity|].
      all: eexists; split; [apply lookup_insert_eq|]; now cbn.
Qed.

(** X19. The counters of a call of dialIterate. On a view of [n >= 1] distinct
    endpoints, with [n] below the largest [int], the statistics the loop
    hands back count one [BestTarget] per dial made plus one for the turn
    that found a duplicate; every dial is counted as good or failed; a
    connection leaves [GoodDials = 1] and [DupesStopped = 0], the exhaustion
    error [GoodDials = 0] and [DupesStopped = 1]. *)
Theorem dialIterate_stats (t : config) (w : world) (cesrv : ceSRV)
    (address : string) (health : gmap string ceHealth) (fuel : nat)
    (Hok : view_ok cesrv)
    (Hn : (1 <= size (uniqueTargetKeys cesrv))%nat)
    (Hsmall : Z.of_nat (size (uniqueTargetKeys cesrv)) < max_int)
    (Hfuel : (size (uniqueTargetKeys cesrv) < fuel)%nat) :
  exists res st,
    dialIterate fuel t w cesrv address health = Some (Ret (res, st)) /\
    BestTarget (ls st) = Z.of_nat (length (dialled st)) + DupesStopped (ls st) /\
    GoodDials (ls st) + FailedDials (ls st) = Z.of_nat (length (dialled st)) /\
    match res with
    | Connected _ => GoodDials (ls st) = 1 /\ DupesStopped (ls st) = 0
    | AllUniqueTargetsFailed _ _ _ _ => GoodDials (ls st) = 0 /\ DupesStopped (ls st) = 1
    end.
Proof.
  unfold dialIterate.
  assert (Hinv : dial_inv (uniqueTargetKeys cesrv)
                   (mkDialState ∅ None (mkStats 0 0 0 0) health [] [])).
  { split; [reflexivity|]. split; [constructor|]. cbn [dupes]. apply empty_subseteq. }
  destruct (dialIterate_from_returns t w cesrv address Hok ltac:(lia) fuel O _ Hinv)
    as (res & st & E & _).
  { cbn [dupes]. rewrite size_empty. lia. }
  exists res, st. split; [exact E|].
  eapply dialIterate_from_post in E; [|exact Hok|lia|exact Hinv|].
  - unfold turn_post in E. destruct res as [a|address' a tried le].
    + destruct E as (Hls & _). rewrite (Hls Hsmall).
      cbn [BestTarget DupesStopped GoodDials FailedDials]. lia.
    + destruct E as (Hls & _). rewrite (Hls Hsmall).
      cbn [BestTarget DupesStopped GoodDials FailedDials]. lia.
  - split; [reflexivity|]. split; [reflexivity|]. intros H. now contradiction H.
Qed.

Lemma dialIterate_stats_witness :
  exists res st,
    dialIterate 3 default_config
      (mkWorld (fun _ _ => 0) (fun _ => 1000) (fun _ c => c)
         (fun _ _ => Some "connection refused") (fun _ => 1001))
      two_targets "example.net:80" ∅ = Some (Ret (res, st)) /\
    BestTarget (ls st) = Z.of_nat (length (dialled st)) + DupesStopped (ls st).
Proof.
  destruct (dialIterate_stats default_config
              (mkWorld (fun _ _ => 0) (fun _ => 1000) (fun _ c => c)
                 (fun _ _ => Some "connection refused") (fun _ => 1001))
              two_targets "example.net:80" ∅ 3)
    as (res & st & E & L & _).
  - repeat constructor; discriminate.
  - vm_compute. lia.
  - vm_compute. reflexivity.
  - vm_compute. lia.
  - exists res, st. split; [exact E|exact L].
Defined.

(** X20. The two ways dialIterate ends. On a view of [n >= 1] distinct endpoints
    it sends a connection or the exhaustion error. A connection is one that
    the last call of the dialer returned, and the health store then holds a
    record for the address with no veto ([nextDialAttempt] zero), an empty
    dial status and the time of the dial. The exhaustion error names the
    address the caller asked for, reports at least one address tried, and
    its last error is never nil: it is the error of the last dial made. *)
Theorem dialIterate_outcome (t : config) (w : world) (cesrv : ceSRV)
    (address : string) (health : gmap string ceHealth) (fuel : nat)
    (Hok : view_ok cesrv)
    (Hn : (1 <= size (uniqueTargetKeys cesrv))%nat)
    (Hfuel : (size (uniqueTargetKeys cesrv) < fuel)%nat) :
  exists res st,
    dialIterate fuel t w cesrv address health = Some (Ret (res, st)) /\
    let n := length (dialled st) in
    match res with
    | Connected a =>
        systemDialContext w (pred n) a = None /\
        exists ceh, cache st !! a = Some ceh /\
          nextDialAttempt ceh = zeroTime /\ lastDialStatus ceh = "" /\
          lastDialAttempt ceh = clock_dial w (pred n)
    | AllUniqueTargetsFailed address' _ tried le =>
        address' = address /\ 1 <= tried /\
        exists msg, le = Some msg /\
          systemDialContext w (pred n) (List.last (dialled st) "") = Some msg
    end.
Proof.
  unfold dialIterate.
  assert (Hinv : dial_inv (uniqueTargetKeys cesrv)
                   (mkDialState ∅ None (mkStats 0 0 0 0) health [] [])).
  { split; [reflexivity|]. split; [constructor|]. cbn [dupes]. apply empty_subseteq. }
  destruct (dialIterate_from_returns t w cesrv address Hok ltac:(lia) fuel O _ Hinv)
    as (res & st & E & _).
  { cbn [dupes]. rewrite size_empty. lia. }
  exists res, st. split; [exact E|].
  eapply dialIterate_from_post in E; [|exact Hok|lia|exact Hinv|].
  - unfold turn_post in E. cbv zeta. destruct res as [a|address' a tried le].
    + destruct E as (_ & Hd & _ & ceh & Hc & H1 & H2 & H3). split; [exact Hd|].
      exists ceh. now repeat split.
    + destruct E as (_ & Ha & Ht & Hm). now repeat split.
  - split; [reflexivity|]. split; [reflexivity|]. intros H. now contradiction H.
Qed.

Lemma dialIterate_outcome_witness :
  exists res st,
    dialIterate 3 default_config
      (mkWorld (fun _ _ => 0) (fun _ => 1000) (fun _ c => c)
         (fun i _ => if Nat.eqb i 0 then Some "connection refused" else None)
         (fun _ => 1001))
      two_targets "example.net:80" ∅ = Some (Ret (res, st)) /\
    match res with
    | Connected a => exists ceh, cache st !! a = Some ceh /\ nextDialAttempt ceh = zeroTime
    | AllUniqueTargetsFailed _ _ tried _ => 1 <= tried
    end.
Proof.
  destruct (dialIterate_outcome default_config
              (mkWorld (fun _ _ => 0) (fun _ => 1000) (fun _ c => c)
                 (fun i _ => if Nat.eqb i 0 then Some "connection refused" else None)
                 (fun _ => 1001))
              two_targets "example.net:80" ∅ 3)
    as (res & st & E & P).
  - repeat constructor; discriminate.
  - vm_compute. lia.
  - vm_compute. lia.
  - exists res, st. split; [exact E|]. cbv zeta in P.
    destruct res as [a|? ? tried ?].
    + destruct P as (_ & ceh & Hc & Hz & _). now exists ceh.
    + now destruct P as (_ & Ht & _).
Defined.

(** ** populate: no record is lost *)

Lemma transfer_step_targets st r :
  map target_key (concat (map targets (close_priorities (transfer_step st r)))) =
  map target_key (concat (map targets (close_priorities st))) ++
  (if has_target r then [record_key r] else []).
Proof.
  unfold transfer_step. destruct (has_target r) eqn:Ht.
  - rewrite (has_target_true r Ht). destruct st as [done [c|]]; unfold close_priorities;
      cbn [fst snd].
    + destruct (negb (Priority r =? priority c)); cbn [fst snd].
      * rewrite !map_app, !concat_app, !map_app. cbn [map concat targets add_target
          new_priority app]. now rewrite ?app_nil_r.
      * rewrite !map_app, !concat_app, !map_app. cbn [map concat targets add_target].
        rewrite ?app_nil_r, map_app, <- app_assoc. reflexivity.
    + rewrite !map_app, !concat_app, !map_app. cbn [map concat targets add_target
        new_priority app]. now rewrite ?app_nil_r.
  - rewrite (has_target_false r Ht). now rewrite app_nil_r.
Qed.

Lemma transfer_fold_targets l : forall st,
  map target_key (concat (map targets (close_priorities (fold_left transfer_step l st)))) =
  map target_key (concat (map targets (close_priorities st))) ++
  map record_key (List.filter has_target l).
Proof.
  induction l as [|r l IH]; intros st; cbn [fold_left List.filter map].
  - now rewrite app_nil_r.
  - rewrite IH, transfer_step_targets, <- app_assoc. f_equal.
    now destruct (has_target r).
Qed.

Lemma assign_verySmall_keys vs ts : forall total,
  map target_key (fst (assign_verySmall vs ts total)) = map target_key ts.
Proof.
  induction ts as [|cet ts IH]; intros total; cbn [assign_verySmall]; [reflexivity|].
  destruct (weight cet =? 0).
  - specialize (IH (int_add total vs)).
    destruct (assign_verySmall vs ts (int_add total vs)) as [r total'].
    cbn [fst map] in *. now rewrite IH.
  - specialize (IH total). destruct (assign_verySmall vs ts total) as [r total'].
    cbn [fst map] in *. now rewrite IH.
Qed.

Lemma fix_zero_weights_keys cep :
  map target_key (targets (fix_zero_weights cep)) = map target_key (targets cep).
Proof.
  unfold fix_zero_weights. destruct (zeroWeightEntryCount (targets cep) =? 0); [reflexivity|].
  pose proof (assign_verySmall_keys
                (verySmall_of (totalWeight cep) (zeroWeightEntryCount (targets cep)))
                (targets cep) (totalWeight cep)) as H.
  destruct (assign_verySmall _ (targets cep) (totalWeight cep)) as [ts total].
  exact H.
Qed.

Lemma fix_zero_weights_all_keys ps :
  map target_key (concat (map targets (map fix_zero_weights ps))) =
  map target_key (concat (map targets ps)).
Proof.
  induction ps as [|cep ps IH]; [reflexivity|].
  cbn [map concat]. now rewrite !map_app, IH, fix_zero_weights_keys.
Qed.

Lemma Permutation_filter_has_target (l l' : list SRV) :
  Permutation l l' -> Permutation (List.filter has_target l) (List.filter has_target l').
Proof.
  induction 1 as [|x l l' _ IH|x y l|l l' l'' _ IH1 _ IH2]; cbn [List.filter].
  - constructor.
  - destruct (has_target x); [now constructor|exact IH].
  - destruct (has_target x), (has_target y); try reflexivity. apply perm_swap.
  - now transitivity (List.filter has_target l').
Qed.

(** X21. populate neither loses nor invents an endpoint. Whatever the records,
    their weights and the view populated, the endpoints (lower-cased target
    and port) of the targets of the view after populate are those the view
    had, followed by those of the records with a target name, in the order
    [sort.Slice] left them: one stored target per such record, duplicates
    included; up to order these are the records handed in. *)
Theorem populate_keeps_records (sortSlice : list SRV -> list SRV) (t : ceSRV)
    (srvs : list SRV) (Hsort : sorts_by_priority sortSlice) :
  map target_key (allTargets (populate sortSlice t srvs)) =
    map target_key (allTargets t) ++
    map record_key (List.filter has_target (sortSlice srvs)) /\
  Permutation (map record_key (List.filter has_target (sortSlice srvs)))
              (map record_key (List.filter has_target srvs)).
Proof.
  split.
  - unfold allTargets, populate, populate_sorted. cbn [priorities].
    rewrite fix_zero_weights_all_keys. unfold transfer.
    now rewrite transfer_fold_targets.
  - apply Permutation_map, Permutation_filter_has_target. symmetry.
    now destruct (Hsort srvs).
Qed.

Lemma populate_keeps_records_witness :
  map target_key
    (allTargets (populate sort_by_priority (fresh_view 0)
                   [mkSRV "B" 2 5 0; mkSRV "" 3 1 7; mkSRV "a" 1 0 1])) =
  [("a", 1); ("b", 2)].
Proof.
  destruct (populate_keeps_records sort_by_priority (fresh_view 0)
              [mkSRV "B" 2 5 0; mkSRV "" 3 1 7; mkSRV "a" 1 0 1]
              sort_by_priority_sorts) as [E _].
  rewrite E. reflexivity.
Defined.
